(** * FlappyBird.jsx: the simulation core, embedded and verified

    A shallow embedding of the game logic of [src/FlappyBird.jsx]: the
    scale-dependent profile, the pipe factory, the per-frame [update], the
    input handlers and the session life cycle.  Rendering, styling and the
    audio synthesis are left out; sounds and writes to local storage appear
    as values of type [Effect] returned next to the new state.

    Numbers.  JavaScript numbers are modelled as exact rationals kept in
    lowest terms.  The constants of the profile, the margins and the sizes
    are integers or small decimal multiples of [H/480].  Positions that the
    code accumulates frame by frame (the [x] of a pipe, [y] and [vy] of the
    bird) are doubles there and can differ from the rationals in the last
    bits when speed or gravity is not dyadic; what is stated about them
    below is therefore either an order relation, which does not depend on
    the last bits, a value assigned rather than accumulated, or a concrete
    run on the 960 x 480 canvas in normal mode, where every value is
    dyadic.  Only [best] can be other than a finite number, because it is
    read from local storage: it has the type [JsNumber], with NaN and the
    infinities.

    Closures.  The animation loop and the key handler are registered by
    effects that run again only when [running] or [paused] changes, so the
    [update], [flap] and [resetGame] they call see the [best] and the
    [displaySize] of the render in which that last happened.  The state
    keeps these captured values in [seen]; handlers written inline in the
    markup (mouse, touch, buttons, mode select) see the current ones. *)

From Stdlib Require Import ZArith QArith Qround Qminmax Qabs Lia Lqa List Bool String.
From stdpp Require Import base gmap.
Import ListNotations.

Local Open Scope Q_scope.

(** ** JavaScript numbers *)

Module Num.

Definition add (a b : Q) : Q := Qred (a + b).
Definition sub (a b : Q) : Q := Qred (a - b).
Definition mul (a b : Q) : Q := Qred (a * b).
Definition div (a b : Q) : Q := Qred (a / b).

(** [a < b] and [a > b] as the conditions of [if] and [while]. *)
Definition lt (a b : Q) : bool := negb (Qle_bool b a).
Definition gt (a b : Q) : bool := lt b a.

(** [Math.floor] and [Math.round] (halves go up). *)
Definition floor (a : Q) : Q := inject_Z (Qfloor a).
Definition round (a : Q) : Q := inject_Z (Qfloor (a + 0.5)).

Definition max (a b : Q) : Q := Qmax a b.
Definition min (a b : Q) : Q := Qmin a b.

End Num.

(** ** Data *)

Inductive Mode := easy | normal | hard.

(** [worldRef.current]: the tick counter and the tunables derived from the
    canvas size and the mode. *)
Record World := mkWorld {
  w_t : Z;
  w_gravity : Q;
  w_flap : Q;
  w_pipeGap : Q;
  w_pipeWidth : Q;
  w_pipeSpacing : Q;
  w_speed : Q;
  w_groundY : Q;
  w_skyColor : string
}.

(** [birdRef.current]. *)
Record Bird := mkBird {
  b_x : Q;
  b_y : Q;
  b_vy : Q;
  b_r : Q;
  b_wingAngle : Q
}.

(** A pipe object [{ x, topH }].  The set of scored pipes is keyed by object
    identity, so every pipe carries the address it was allocated at. *)
Record Pipe := mkPipe {
  p_id : nat;
  p_x : Q;
  p_topH : Q
}.

(** [displaySize], in CSS pixels. *)
Record Size := mkSize { sz_w : Q; sz_h : Q }.

(** What object allocation and [Math.random] consume: the next fresh
    address and the number of random draws made so far. *)
Record Gen := mkGen { g_nextId : nat; g_draws : nat }.

(** ** The profile: scale-dependent physics *)

Definition gapFactor (m : Mode) : Q :=
  match m with easy => 1.35 | hard => 0.85 | normal => 1.0 end.

Definition speedFactor (m : Mode) : Q :=
  match m with easy => 2.4 | hard => 3.4 | normal => 3.0 end.

Definition skyColorOf (m : Mode) : string :=
  match m with
  | easy => "#FFF7BF"
  | hard => "#9CA3AF"
  | normal => "#87CEEB"
  end.

(** The block "Scale gameplay" of the size-or-mode effect: every tunable of
    [world] is overwritten, [world.t] is kept. *)
Definition scaleGameplay (m : Mode) (W H : Q) (world : World) : World :=
  let s := Num.div H 480 in
  let baseGap := Num.max (Num.mul 120 s) (Num.round (Num.mul H 0.28)) in
  {| w_t := w_t world;
     w_gravity := Num.mul 0.5 s;
     w_flap := Num.mul (-9) s;
     w_pipeGap := Num.round (Num.mul baseGap (gapFactor m));
     w_pipeWidth := Num.max 54 (Num.round (Num.mul W 0.06));
     w_pipeSpacing := Num.max 260 (Num.round (Num.mul W 0.32));
     w_speed := Num.mul (speedFactor m) s;
     w_groundY := Num.round (Num.sub H (Num.max 36 (Num.mul 0.08 H)));
     w_skyColor := skyColorOf m |}.

(** The scaling law in the words of the specification (no rounding). *)
Record SpecProfile := mkSpecProfile {
  sp_gravity : Q;
  sp_flapImpulse : Q;
  sp_gapHeight : Q;
  sp_obstacleWidth : Q;
  sp_spacing : Q;
  sp_scrollSpeed : Q;
  sp_groundLine : Q
}.

Definition spec_profile (m : Mode) (W H : Q) : SpecProfile :=
  let s := H / 480 in
  {| sp_gravity := 0.5 * s;
     sp_flapImpulse := -9 * s;
     sp_gapHeight := Qmax (120 * s) (0.28 * H) * gapFactor m;
     sp_obstacleWidth := Qmax 54 (0.06 * W);
     sp_spacing := Qmax 260 (0.32 * W);
     sp_scrollSpeed := speedFactor m * s;
     sp_groundLine := H - Qmax 36 (0.08 * H) |}.

(** ** The pipe factory *)

Section Factory.

(** [Math.random()]: the n-th draw of the session. *)
Variable random : nat -> Q.

(** [randRange(min, max)], fed with the draw [r]. *)
Definition randRange (r min max : Q) : Q :=
  Num.add (Num.floor (Num.mul r (Num.add (Num.sub max min) 1))) min.

Definition marginTop (H : Q) : Q := Num.round (Num.mul 0.06 H).
Definition marginBottom (H : Q) : Q := Num.round (Num.mul 0.06 H).

Definition maxTopAllowed (world : World) (H : Q) : Q :=
  Num.sub (Num.sub (w_groundY world) (marginBottom H)) (w_pipeGap world).

Definition minTopAllowed (H : Q) : Q := marginTop H.

Definition minTop (world : World) (H : Q) : Q :=
  Num.max 0 (Num.min (minTopAllowed H) (maxTopAllowed world H)).

Definition maxTop (world : World) (H : Q) : Q :=
  Num.max (minTop world H) (maxTopAllowed world H).

(** [makePipeAtX(x)]: reads [worldRef.current] and [displaySize.h], draws
    once and allocates one object. *)
Definition makePipeAtX (world : World) (H : Q) (x : Q) (g : Gen) : Pipe * Gen :=
  let topH := randRange (random (g_draws g)) (minTop world H) (maxTop world H) in
  ({| p_id := g_nextId g; p_x := x; p_topH := topH |},
   {| g_nextId := S (g_nextId g); g_draws := S (g_draws g) |}).

(** The loop of [generateInitialPipes]: [n] pipes, the first at
    [startX + i * spacing]. *)
Fixpoint pushPipes (world : World) (H : Q) (startX spacing : Q)
         (i : Z) (n : nat) (g : Gen) : list Pipe * Gen :=
  match n with
  | O => ([], g)
  | S n' =>
      let x := Num.add startX (Num.mul (inject_Z i) spacing) in
      let '(p, g1) := makePipeAtX world H x g in
      let '(ps, g2) := pushPipes world H startX spacing (i + 1)%Z n' g1 in
      (p :: ps, g2)
  end.

Definition generateInitialPipes (world : World) (H : Q) (W : Q) (g : Gen)
  : list Pipe * Gen :=
  let spacing := w_pipeSpacing world in
  let startX := Num.add W (Num.round (Num.mul spacing 0.6)) in
  pushPipes world H startX spacing 0%Z 6 g.

End Factory.

(** ** The state of a session *)

(** The value of [best].  The initialiser gives whatever [Number] makes of
    the stored string, which need not be an integer nor a number at all; a
    credit gives a score. *)
Inductive JsNumber := Finite (q : Q) | Infinity | NegInfinity | NaN.

Definition ofScore (n : Z) : JsNumber := Finite (inject_Z n).

(** [n > best0] for a score [n]: false when [best0] is NaN. *)
Definition beats (best0 : JsNumber) (n : Z) : bool :=
  match best0 with
  | Finite q => Num.lt q (inject_Z n)
  | NegInfinity => true
  | Infinity | NaN => false
  end.

(** What the loop and the key handler closed over: [best] and
    [displaySize] of the render in which their effects last ran. *)
Record Seen := mkSeen { c_best : JsNumber; c_size : Size }.

(** React state ([running], [paused], [mode], [score], [best],
    [displaySize]) and the refs mutated inside the loop.  A [set...] call of
    React takes effect when the handler that made it has returned; no
    handler of the source reads a state variable after setting it, so the
    setters are modelled as plain updates.  [seen] is what the closures of
    the loop and of the key handler captured. *)
Record State := mkState {
  running : bool;
  paused : bool;
  mode : Mode;
  score : Z;
  scoreRef : Z;
  best : JsNumber;
  displaySize : Size;
  birdRef : Bird;
  pipesRef : list Pipe;
  gameOverRef : bool;
  scoredSetRef : gset nat;
  worldRef : World;
  gen : Gen;
  seen : Seen
}.

(** What a handler does besides changing the state. *)
Inductive Effect :=
| EnsureAudio
| SfxFlap
| SfxScore
| SfxGameOver
| StoreBest (n : Z).   (* localStorage.setItem('flappy_best', String(n)) *)

(** How a call ends: it returns, it throws a [TypeError], or its loop never
    ends. *)
Inductive Outcome (A : Type) :=
| Returns (a : A)
| Throws
| Diverges.
Arguments Returns {A} a.
Arguments Throws {A}.
Arguments Diverges {A}.

Definition setRunning (v : bool) (s : State) : State :=
  let 'mkState _ pa mo sc sr be ds bi pi go ss wo ge se := s in
  mkState v pa mo sc sr be ds bi pi go ss wo ge se.

Definition setPaused (v : bool) (s : State) : State :=
  let 'mkState ru _ mo sc sr be ds bi pi go ss wo ge se := s in
  mkState ru v mo sc sr be ds bi pi go ss wo ge se.

Definition setMode (v : Mode) (s : State) : State :=
  let 'mkState ru pa _ sc sr be ds bi pi go ss wo ge se := s in
  mkState ru pa v sc sr be ds bi pi go ss wo ge se.

(** [setScore(v)] together with [scoreRef.current = v]. *)
Definition setScore (v : Z) (s : State) : State :=
  let 'mkState ru pa mo _ _ be ds bi pi go ss wo ge se := s in
  mkState ru pa mo v v be ds bi pi go ss wo ge se.

Definition setBest (v : JsNumber) (s : State) : State :=
  let 'mkState ru pa mo sc sr _ ds bi pi go ss wo ge se := s in
  mkState ru pa mo sc sr v ds bi pi go ss wo ge se.

Definition setDisplaySize (v : Size) (s : State) : State :=
  let 'mkState ru pa mo sc sr be _ bi pi go ss wo ge se := s in
  mkState ru pa mo sc sr be v bi pi go ss wo ge se.

Definition withBird (v : Bird) (s : State) : State :=
  let 'mkState ru pa mo sc sr be ds _ pi go ss wo ge se := s in
  mkState ru pa mo sc sr be ds v pi go ss wo ge se.

Definition withPipes (v : list Pipe) (g : Gen) (s : State) : State :=
  let 'mkState ru pa mo sc sr be ds bi _ go ss wo _ se := s in
  mkState ru pa mo sc sr be ds bi v go ss wo g se.

Definition withGameOver (v : bool) (s : State) : State :=
  let 'mkState ru pa mo sc sr be ds bi pi _ ss wo ge se := s in
  mkState ru pa mo sc sr be ds bi pi v ss wo ge se.

Definition withScoredSet (v : gset nat) (s : State) : State :=
  let 'mkState ru pa mo sc sr be ds bi pi go _ wo ge se := s in
  mkState ru pa mo sc sr be ds bi pi go v wo ge se.

Definition withWorld (v : World) (s : State) : State :=
  let 'mkState ru pa mo sc sr be ds bi pi go ss _ ge se := s in
  mkState ru pa mo sc sr be ds bi pi go ss v ge se.

Definition withSeen (v : Seen) (s : State) : State :=
  let 'mkState ru pa mo sc sr be ds bi pi go ss wo ge _ := s in
  mkState ru pa mo sc sr be ds bi pi go ss wo ge v.

Definition bird_y (y : Q) (b : Bird) : Bird :=
  {| b_x := b_x b; b_y := y; b_vy := b_vy b; b_r := b_r b;
     b_wingAngle := b_wingAngle b |}.

Definition bird_vy (vy : Q) (b : Bird) : Bird :=
  {| b_x := b_x b; b_y := b_y b; b_vy := vy; b_r := b_r b;
     b_wingAngle := b_wingAngle b |}.

Definition bird_wingAngle (a : Q) (b : Bird) : Bird :=
  {| b_x := b_x b; b_y := b_y b; b_vy := b_vy b; b_r := b_r b;
     b_wingAngle := a |}.

Definition pipe_x (x : Q) (p : Pipe) : Pipe :=
  {| p_id := p_id p; p_x := x; p_topH := p_topH p |}.

Definition world_tick (w : World) : World :=
  {| w_t := w_t w + 1;
     w_gravity := w_gravity w; w_flap := w_flap w; w_pipeGap := w_pipeGap w;
     w_pipeWidth := w_pipeWidth w; w_pipeSpacing := w_pipeSpacing w;
     w_speed := w_speed w; w_groundY := w_groundY w;
     w_skyColor := w_skyColor w |}.

(** ** The game *)

Section Game.

Variable random : nat -> Q.

(** [resetGame()] of a render that saw the canvas size [size]: the bird
    keeps its radius; size and profile are read, not changed. *)
Definition resetGameAt (size : Size) (s : State) : State :=
  let W := sz_w size in
  let H := sz_h size in
  let bird :=
    {| b_x := Num.round (Num.mul W 0.18);
       b_y := Num.round (Num.mul H 0.5);
       b_vy := 0;
       b_r := b_r (birdRef s);
       b_wingAngle := 0 |} in
  let '(pipes, g) := generateInitialPipes random (worldRef s) H W (gen s) in
  setScore 0
    (withGameOver false
       (withScoredSet ∅
          (withPipes pipes g (withBird bird s)))).

(** [resetGame()] of the current render. *)
Definition resetGame (s : State) : State := resetGameAt (displaySize s) s.

(** The effect run when the size or the mode has changed: new profile, new
    bird, new pipes, and the session restarts. *)
Definition sizeOrModeEffect (s : State) : State :=
  let W := sz_w (displaySize s) in
  let H := sz_h (displaySize s) in
  let world := scaleGameplay (mode s) W H (worldRef s) in
  let bird :=
    {| b_x := Num.round (Num.mul W 0.18);
       b_y := Num.round (Num.mul H 0.5);
       b_vy := 0;
       b_r := Num.max 14 (Num.round (Num.mul 16 (Num.div H 480)));
       b_wingAngle := 0 |} in
  let '(pipes, g) := generateInitialPipes random world H W (gen s) in
  setPaused false
    (setRunning true
       (setScore 0
          (withGameOver false
             (withScoredSet ∅
                (withPipes pipes g (withBird bird (withWorld world s))))))).

(** [endGame()], guarded against re-entry. *)
Definition endGame (s : State) : State * list Effect :=
  if gameOverRef s then (s, [])
  else (setPaused true (withGameOver true s), [SfxGameOver]).

(** [togglePause()]. *)
Definition togglePause (s : State) : State :=
  if negb (running s) then s else setPaused (negb (paused s)) s.

(** [flap()] of a render that saw the canvas size [size]. *)
Definition flapAt (size : Size) (s : State) : State * list Effect :=
  if negb (running s) then
    (resetGameAt size (setPaused false (setRunning true s)), [EnsureAudio])
  else if gameOverRef s then
    (resetGameAt size (setPaused false s), [EnsureAudio])
  else if negb (paused s) then
    (withBird (bird_wingAngle (-0.8) (bird_vy (w_flap (worldRef s)) (birdRef s))) s,
     [EnsureAudio; SfxFlap])
  else (s, [EnsureAudio]).

(** [flap()] of the current render. *)
Definition flap (s : State) : State * list Effect := flapAt (displaySize s) s.

(** *** One frame *)

(** "Physics": velocity first, then position; the wing relaxes. *)
Definition integrate (world : World) (b : Bird) : Bird :=
  let vy := Num.add (b_vy b) (w_gravity world) in
  let y := Num.add (b_y b) vy in
  let wing :=
    if Num.lt (b_wingAngle b) 0
    then Num.min (Num.add (b_wingAngle b) 0.2) 0
    else b_wingAngle b in
  {| b_x := b_x b; b_y := y; b_vy := vy; b_r := b_r b; b_wingAngle := wing |}.

(** "Move pipes". *)
Definition movePipes (world : World) (pipes : list Pipe) : list Pipe :=
  map (fun p => pipe_x (Num.sub (p_x p) (w_speed world)) p) pipes.

(** The condition of the recycling loop on the first pipe. *)
Definition offScreen (world : World) (p : Pipe) : bool :=
  Num.lt (Num.add (p_x p) (w_pipeWidth world)) (-10).

(** The recycling loop, [fuel] turns at most.  After [pipes.shift()] the
    last element is read; on an empty array that is [undefined.x]. *)
Fixpoint recycle (fuel : nat) (world : World) (H : Q)
         (pipes : list Pipe) (g : Gen) : Outcome (list Pipe * Gen) :=
  match pipes with
  | [] => Returns (pipes, g)
  | p0 :: rest =>
      if offScreen world p0 then
        match fuel with
        | O => Diverges
        | S fuel' =>
            match last rest with
            | None => Throws
            | Some pl =>
                let lastX := p_x pl in
                let '(p, g') :=
                  makePipeAtX random world H
                    (Num.add lastX (w_pipeSpacing world)) g in
                recycle fuel' world H (rest ++ [p]) g'
            end
        end
      else Returns (pipes, g)
  end.

(** How many more pipes must be appended after one at [x] before a pipe
    is no longer off screen; with the length of the queue it bounds the
    turns of the loop. *)
Definition overdue (world : World) (x : Q) : nat :=
  Z.to_nat (Qceiling ((-10 - w_pipeWidth world - x) / w_pipeSpacing world)).

Definition recycleFuel (world : World) (pipes : list Pipe) : nat :=
  match last pipes with
  | None => 1
  | Some pl => S (overdue world (p_x pl) + length pipes)
  end.

(** The scoring callback passed to [setScore]; [best0] is the value of
    [best] that the running [update] closed over. *)
Definition credit (best0 : JsNumber) (p : Pipe) (s : State) : State * list Effect :=
  let s1 := withScoredSet ({[p_id p]} ∪ scoredSetRef s) s in
  let next := (score s1 + 1)%Z in
  if beats best0 next
  then (setScore next (setBest (ofScore next) s1), [StoreBest next; SfxScore])
  else (setScore next s1, [SfxScore]).

(** Does the bird hit pipe [p]? *)
Definition hitsPipe (world : World) (bird : Bird) (p : Pipe) : bool :=
  let gapTop := p_topH p in
  let gapBottom := Num.add (p_topH p) (w_pipeGap world) in
  let pipeLeft := p_x p in
  let pipeRight := Num.add (p_x p) (w_pipeWidth world) in
  let inX := Num.gt (Num.add (b_x bird) (b_r bird)) pipeLeft
             && Num.lt (Num.sub (b_x bird) (b_r bird)) pipeRight in
  inX && (Num.lt (Num.sub (b_y bird) (b_r bird)) gapTop
          || Num.gt (Num.add (b_y bird) (b_r bird)) gapBottom).

(** Has the centre of pipe [p] passed the bird? *)
Definition passed (world : World) (bird : Bird) (p : Pipe) : bool :=
  let passX := Num.add (p_x p) (Num.div (w_pipeWidth world) 2) in
  Num.lt passX (b_x bird).

(** The loop over the pipes: collision first, then the score.  The
    boolean tells whether the loop left [update] through [endGame]. *)
Fixpoint scanPipes (best0 : JsNumber) (world : World) (bird : Bird)
         (pipes : list Pipe) (s : State) : State * list Effect * bool :=
  match pipes with
  | [] => (s, [], false)
  | p :: rest =>
      if hitsPipe world bird p then
        let '(s', e) := endGame s in (s', e, true)
      else
        let '(s1, e1) :=
          if passed world bird p
             && negb (bool_decide (p_id p ∈ scoredSetRef s))
          then credit best0 p s
          else (s, []) in
        let '(s2, e2, hit) := scanPipes best0 world bird rest s1 in
        (s2, e1 ++ e2, hit)
  end.

(** "Move pipes", "Recycle pipes that go off-screen and add new ones"
    and "Spawn initial if empty", with the canvas size that the running
    loop saw.  The loop gets [recycleFuel] turns, which is enough whenever
    the spacing is positive (see [recycle_total]). *)
Definition scrollPipes (s : State) : Outcome (list Pipe * Gen) :=
  let world := worldRef s in
  let W := sz_w (c_size (seen s)) in
  let H := sz_h (c_size (seen s)) in
  let pipes := movePipes world (pipesRef s) in
  match recycle (recycleFuel world pipes) world H pipes (gen s) with
  | Returns ([], g) => Returns (generateInitialPipes random world H W g)
  | r => r
  end.

(** "Collision detection" with the integrated [bird], the score compared
    with the [best] that the running loop saw, and at the very end the tick
    counter. *)
Definition detect (bird : Bird) (s : State) : State * list Effect :=
  let world := worldRef s in
  let groundY := w_groundY world in
  if Num.gt (Num.add (b_y bird) (b_r bird)) groundY then
    endGame (withBird (bird_y (Num.sub groundY (b_r bird)) bird) s)
  else
    let bird :=
      if Num.lt (Num.sub (b_y bird) (b_r bird)) 0
      then bird_vy 0 (bird_y (b_r bird) bird)
      else bird in
    let '(s', e, hit) :=
      scanPipes (c_best (seen s)) world bird (pipesRef s) (withBird bird s) in
    if hit then (s', e)
    else (withWorld (world_tick world) s', e).

(** [update()]. *)
Definition update (s : State) : Outcome (State * list Effect) :=
  if negb (running s) || paused s then Returns (s, [])
  else
    let bird := integrate (worldRef s) (birdRef s) in
    match scrollPipes s with
    | Returns (pipes, g) => Returns (detect bird (withPipes pipes g s))
    | Throws => Throws
    | Diverges => Diverges
    end.

End Game.

(** ** Start-up, inputs and sessions *)

Global Instance Mode_eq_dec : EqDecision Mode.
Proof. solve_decision. Defined.

(** The initialiser of [best],
    [Number(localStorage.getItem('flappy_best') || 0)].  [item] is [None]
    when [getItem] gives [null] or the empty string, which are falsy;
    otherwise it is what [Number] makes of the stored string: the number it
    spells, or NaN when it spells none. *)
Definition readBest (item : option JsNumber) : JsNumber :=
  match item with
  | Some n => n
  | None => ofScore 0
  end.

(** The first render: the initial values of the state variables and refs. *)
Definition initialState (item : option JsNumber) : State :=
  {| running := false;
     paused := false;
     mode := normal;
     score := 0;
     scoreRef := 0;
     best := readBest item;
     displaySize := {| sz_w := 960; sz_h := 480 |};
     birdRef := {| b_x := 160; b_y := 240; b_vy := 0; b_r := 16; b_wingAngle := 0 |};
     pipesRef := [];
     gameOverRef := false;
     scoredSetRef := ∅;
     worldRef :=
       {| w_t := 0; w_gravity := 0.5; w_flap := -9; w_pipeGap := 140;
          w_pipeWidth := 70; w_pipeSpacing := 300; w_speed := 3;
          w_groundY := 440; w_skyColor := "#87CEEB" |};
     gen := {| g_nextId := 0; g_draws := 0 |};
     seen := {| c_best := readBest item;
                c_size := {| sz_w := 960; sz_h := 480 |} |} |}.

(** [recomputeSize()], from [window.innerWidth]. *)
Definition recomputeSize (innerWidth : Q) : Size :=
  let vw := Num.max 400 (Num.min 1440 (Num.sub innerWidth 32)) in
  let w := Num.round vw in
  let h := Num.round (Num.div w 2) in
  {| sz_w := w; sz_h := h |}.

Definition sameSize (a b : Size) : bool :=
  Qeq_bool (sz_w a) (sz_w b) && Qeq_bool (sz_h a) (sz_h b).

Inductive Input :=
| Frame                          (* an animation frame: update() *)
| Press                          (* mouse down, touch start on the canvas *)
| KeySpace                       (* Space or ArrowUp *)
| KeyP
| PauseButton
| KeyR
| KeyEnter
| StartButton
| RestartButton
| SelectMode (m : Mode)
| WindowResize (innerWidth : Q).

Section Session.

Variable random : nat -> Q.

(** The size-or-mode effect runs after a render in which the size or the
    mode differs from the previous one. *)
Definition resize (innerWidth : Q) (s : State) : State :=
  let size := recomputeSize innerWidth in
  if sameSize size (displaySize s) then s
  else sizeOrModeEffect random (setDisplaySize size s).

Definition selectMode (m : Mode) (s : State) : State :=
  let s1 := setPaused false (setRunning true (resetGame random (setMode m s))) in
  if decide (m = mode s) then s1 else sizeOrModeEffect random s1.

(** The canvas handlers: [ensureAudio(); flap();], inline and so of the
    current render. *)
Definition press (s : State) : State * list Effect :=
  let '(s', e) := flap random s in (s', EnsureAudio :: e).

(** The branches of [onKey], all of the render that registered it. *)
Definition keySpace (s : State) : State * list Effect :=
  let '(s', e) := flapAt random (c_size (seen s)) s in (s', EnsureAudio :: e).

Definition keyR (s : State) : State :=
  let size := c_size (seen s) in
  if running s
  then setPaused false (setRunning true (resetGameAt random size s))
  else resetGameAt random size (setRunning true s).

Definition keyEnter (s : State) : State :=
  let size := c_size (seen s) in
  if negb (running s)
  then resetGameAt random size (setPaused false (setRunning true s))
  else if gameOverRef s
  then setPaused false (setRunning true (resetGameAt random size s))
  else s.

(** The pause button is disabled while the session does not run. *)
Definition pauseButton (s : State) : State * list Effect :=
  if running s then (togglePause s, [EnsureAudio]) else (s, []).

Definition startButton (s : State) : State * list Effect :=
  if negb (running s)
  then (resetGame random (setPaused false (setRunning true s)), [EnsureAudio])
  else if gameOverRef s
  then (setPaused false (resetGame random s), [EnsureAudio])
  else let '(s', e) := flap random s in (s', EnsureAudio :: e).

Definition restartButton (s : State) : State :=
  resetGame random (setPaused false (setRunning true s)).

(** What the handler of input [i] does to the state. *)
Definition react (i : Input) (s : State) : Outcome (State * list Effect) :=
  match i with
  | Frame => update random s
  | Press => Returns (press s)
  | KeySpace => Returns (keySpace s)
  | KeyP => Returns (togglePause s, [])
  | PauseButton => Returns (pauseButton s)
  | KeyR => Returns (keyR s, [])
  | KeyEnter => Returns (keyEnter s, [])
  | StartButton => Returns (startButton s)
  | RestartButton => Returns (restartButton s, [EnsureAudio])
  | SelectMode m => Returns (selectMode m s, [EnsureAudio])
  | WindowResize iw => Returns (resize iw s, [])
  end.

(** The effects with dependencies [running, paused] register the loop and
    the key handler anew. *)
Definition capture (s : State) : State :=
  withSeen {| c_best := best s; c_size := displaySize s |} s.

(** After a handler React renders; the loop and the key handler are
    registered anew only if [running] or [paused] differ from before. *)
Definition recapture (before after : State) : State :=
  if eqb (running before) (running after) && eqb (paused before) (paused after)
  then after
  else capture after.

Definition handle (i : Input) (s : State) : Outcome (State * list Effect) :=
  match react i s with
  | Returns (s', e) => Returns (recapture s s', e)
  | Throws => Throws
  | Diverges => Diverges
  end.

Fixpoint run (inputs : list Input) (s : State) : Outcome (State * list Effect) :=
  match inputs with
  | [] => Returns (s, [])
  | i :: rest =>
      match handle i s with
      | Returns (s1, e1) =>
          match run rest s1 with
          | Returns (s2, e2) => Returns (s2, e1 ++ e2)
          | Throws => Throws
          | Diverges => Diverges
          end
      | Throws => Throws
      | Diverges => Diverges
      end
  end.

(** Mounting: the size-or-mode effect runs once on the initial 960 x 480,
    and again if the measured window gives another size; [running] has
    become true, so the loop and the key handler see the result. *)
Definition mount (item : option JsNumber) (innerWidth : Q) : State :=
  capture (resize innerWidth (sizeOrModeEffect random (initialState item))).

Definition reachable (s : State) : Prop :=
  exists item innerWidth inputs effects,
    run inputs (mount item innerWidth) = Returns (s, effects).

End Session.

(** ** Notions used in the statements *)

(** [q] is an integer. *)
Definition integral (q : Q) : Prop := Num.floor q == q.

(** How many pipes of the queue are off screen. *)
Definition offCount (world : World) (pipes : list Pipe) : nat :=
  length (List.filter (offScreen world) pipes).

(** The ids of the pipes whose centre has passed the bird. *)
Definition passedIds (world : World) (bird : Bird) (pipes : list Pipe) : gset nat :=
  list_to_set (map p_id (List.filter (passed world bird) pipes)).

(** The score counts the credited pipes. *)
Definition counted (s : State) : Prop :=
  score s = Z.of_nat (size (scoredSetRef s)).

(** ** Concrete runs used below *)

(** Frames [from], ..., [from + n - 1]; before each frame listed in
    [flaps] the player presses. *)
Fixpoint play (flaps : list nat) (from n : nat) : list Input :=
  match n with
  | O => []
  | S n' =>
      (if bool_decide (from ∈ flaps) then [Press; Frame] else [Frame])
        ++ play flaps (S from) n'
  end.

(** A generator that always draws one half. *)
Definition half : nat -> Q := fun _ => 0.5.

(** A generator that always draws zero. *)
Definition zero : nat -> Q := fun _ => 0.

Definition writes (effects : list Effect) : list Z :=
  omap (fun e => match e with StoreBest n => Some n | _ => None end) effects.

(** Flapping every 35 frames holds the bird between the pipes drawn by
    [half] on a 960 x 480 canvas in normal mode. *)
Definition steady : list nat :=
  [8; 43; 78; 113; 148; 183; 218; 253; 288; 323; 358; 393; 428]%nat.

(** The same start, then a climb into the upper pipe. *)
Definition climb : list nat :=
  [8; 43; 78; 113; 148; 183; 218; 253; 288;
   324; 325; 326; 327; 328; 329; 330; 331; 332; 333; 334]%nat.

Definition stateOf (o : Outcome (State * list Effect)) (d : State) : State :=
  match o with Returns (s, _) => s | _ => d end.

Definition effectsOf (o : Outcome (State * list Effect)) : list Effect :=
  match o with Returns (_, e) => e | _ => [] end.

(** ** Notions for the properties beyond the claims *)

(** The canvas size a restart through input [i] places bird and pipes by:
    the key handler uses the size it saw, the inline handlers the current
    one. *)
Definition restartSize (i : Input) (s : State) : Size :=
  match i with
  | KeySpace | KeyR | KeyEnter => c_size (seen s)
  | _ => displaySize s
  end.

(** The pipes are distinct objects allocated before [g], and so are the
    scored ones. *)
Definition allocated (g : Gen) (pipes : list Pipe) (scored : gset nat) : Prop :=
  NoDup (map p_id pipes) /\
  (forall p, p ∈ pipes -> (p_id p < g_nextId g)%nat) /\
  (forall i, i ∈ scored -> (i < g_nextId g)%nat).

Definition allocatedIn (s : State) : Prop :=
  allocated (gen s) (pipesRef s) (scoredSetRef s).

(** What every session keeps: six pipes, a positive spacing, and it is
    running. *)
Definition wellFormed (s : State) : Prop :=
  length (pipesRef s) = 6%nat /\
  260 <= w_pipeSpacing (worldRef s) /\
  running s = true.

(** [draw()]: the top edge of the ground band,
    [H - Math.max(36, Math.round(0.08 * H))]. *)
Definition groundBandTop (H : Q) : Q :=
  Num.sub H (Num.max 36 (Num.round (Num.mul 0.08 H))).

(** * Proofs *)

Set Warnings "-clear-no-such-hyp".

(** ** Facts about numbers *)

Lemma add_eq a b : Num.add a b == a + b.
Proof. apply Qred_correct. Qed.

Lemma sub_eq a b : Num.sub a b == a - b.
Proof. apply Qred_correct. Qed.

Lemma mul_eq a b : Num.mul a b == a * b.
Proof. apply Qred_correct. Qed.

Lemma div_eq a b : Num.div a b == a / b.
Proof. apply Qred_correct. Qed.

Lemma lt_true a b : Num.lt a b = true <-> a < b.
Proof.
  unfold Num.lt. rewrite negb_true_iff, <- not_true_iff_false, Qle_bool_iff.
  split; [apply Qnot_le_lt | apply Qlt_not_le].
Qed.

Lemma lt_false a b : Num.lt a b = false <-> b <= a.
Proof.
  unfold Num.lt. rewrite negb_false_iff. apply Qle_bool_iff.
Qed.

#[global] Instance floor_proper : Proper (Qeq ==> Qeq) Num.floor.
Proof. intros a b E. unfold Num.floor. now rewrite E. Qed.

#[global] Instance round_proper : Proper (Qeq ==> Qeq) Num.round.
Proof. intros a b E. unfold Num.round. now rewrite E. Qed.

Lemma floor_le a : Num.floor a <= a.
Proof. apply Qfloor_le. Qed.

Lemma floor_gt a : a - 1 < Num.floor a.
Proof.
  unfold Num.floor. pose proof (Qlt_floor a) as L.
  rewrite inject_Z_plus in L. change (inject_Z 1) with 1 in L. lra.
Qed.

Lemma round_le a : Num.round a <= a + 0.5.
Proof. apply Qfloor_le. Qed.

Lemma round_gt a : a - 0.5 < Num.round a.
Proof.
  unfold Num.round. pose proof (Qlt_floor (a + 0.5)) as L.
  rewrite inject_Z_plus in L. change (inject_Z 1) with 1 in L. lra.
Qed.

Lemma max_cases a b : (a <= b /\ Num.max a b == b) \/ (b <= a /\ Num.max a b == a).
Proof.
  unfold Num.max. destruct (Q.max_spec a b) as [[L E] | [L E]].
  - left. split; [lra | exact E].
  - right. split; [exact L | exact E].
Qed.

Lemma min_cases a b : (a <= b /\ Num.min a b == a) \/ (b <= a /\ Num.min a b == b).
Proof.
  unfold Num.min. destruct (Q.min_spec a b) as [[L E] | [L E]].
  - left. split; [lra | exact E].
  - right. split; [exact L | exact E].
Qed.

(** Rounding moves a maximum by at most one half. *)
Lemma max_round_near c x : Qabs (Qmax c (Num.round x) - Qmax c x) <= 0.5.
Proof.
  pose proof (round_le x). pose proof (round_gt x).
  apply Qabs_Qle_condition.
  destruct (Q.max_spec c (Num.round x)) as [[L1 E1] | [L1 E1]];
    destruct (Q.max_spec c x) as [[L2 E2] | [L2 E2]];
    rewrite E1, E2; split; lra.
Qed.

Lemma round_near x : Qabs (Num.round x - x) <= 0.5.
Proof.
  pose proof (round_le x). pose proof (round_gt x).
  apply Qabs_Qle_condition. split; lra.
Qed.

Lemma scale_near (u v f : Q) :
  0 < f -> - (0.5) <= u - v -> u - v <= 0.5 ->
  - (0.5 * f) <= u * f - v * f /\ u * f - v * f <= 0.5 * f.
Proof.
  intros F L U.
  assert (E : u * f - v * f == (u - v) * f) by ring.
  rewrite E. split.
  - assert (X : - (0.5 * f) == (- (0.5)) * f) by ring. rewrite X.
    apply Qmult_le_compat_r; lra.
  - apply Qmult_le_compat_r; lra.
Qed.

Lemma gapFactor_bounds m : 0 < gapFactor m.
Proof. destruct m; reflexivity. Qed.

(** C6 (amended).  For every mode and canvas size the profile follows the
    scaling law with [s = H/480]: gravity, flap impulse and scroll speed
    are exactly [0.5*s], [-9*s] and [(2.4|3.0|3.4)*s]; the gap height, the
    pipe width, the spacing and the ground line are the law's values
    rounded to integers as the code rounds them, hence within one half
    (the gap: within [0.5 + 0.5*gapFactor]) of the unrounded law. *)
Theorem scaleGameplay_law (m : Mode) (W H : Q) (world : World) :
  let w := scaleGameplay m W H world in
  let law := spec_profile m W H in
  w_gravity w == sp_gravity law /\
  w_flap w == sp_flapImpulse law /\
  w_speed w == sp_scrollSpeed law /\
  w_pipeGap w ==
    Num.round (Qmax (120 * (H / 480)) (Num.round (0.28 * H)) * gapFactor m) /\
  w_pipeWidth w == Qmax 54 (Num.round (0.06 * W)) /\
  w_pipeSpacing w == Qmax 260 (Num.round (0.32 * W)) /\
  w_groundY w == Num.round (sp_groundLine law) /\
  Qabs (w_pipeGap w - sp_gapHeight law) <= 0.5 + 0.5 * gapFactor m /\
  Qabs (w_pipeWidth w - sp_obstacleWidth law) <= 0.5 /\
  Qabs (w_pipeSpacing w - sp_spacing law) <= 0.5 /\
  Qabs (w_groundY w - sp_groundLine law) <= 0.5.
Proof.
  cbn zeta. unfold scaleGameplay, spec_profile; cbn [w_gravity w_flap w_speed w_pipeGap w_pipeWidth w_pipeSpacing w_groundY sp_gravity sp_flapImpulse sp_gapHeight sp_obstacleWidth sp_spacing sp_scrollSpeed sp_groundLine].
  unfold Num.max.
  assert (EG : Num.round (Num.mul (Qmax (Num.mul 120 (Num.div H 480)) (Num.round (Num.mul H 0.28))) (gapFactor m))
               == Num.round (Qmax (120 * (H / 480)) (Num.round (0.28 * H)) * gapFactor m)).
  { rewrite !mul_eq, !div_eq. rewrite (Qmult_comm H 0.28). reflexivity. }
  assert (EW : Qmax 54 (Num.round (Num.mul W 0.06)) == Qmax 54 (Num.round (0.06 * W))).
  { rewrite mul_eq, (Qmult_comm W). reflexivity. }
  assert (ES : Qmax 260 (Num.round (Num.mul W 0.32)) == Qmax 260 (Num.round (0.32 * W))).
  { rewrite mul_eq, (Qmult_comm W). reflexivity. }
  assert (EY : Num.round (Num.sub H (Qmax 36 (Num.mul 0.08 H))) == Num.round (H - Qmax 36 (0.08 * H))).
  { rewrite sub_eq, mul_eq. reflexivity. }
  repeat split.
  - now rewrite mul_eq, div_eq.
  - now rewrite mul_eq, div_eq.
  - now rewrite mul_eq, div_eq.
  - exact EG.
  - exact EW.
  - exact ES.
  - exact EY.
  - rewrite EG.
    set (a := 120 * (H / 480)). set (b := 0.28 * H). set (f := gapFactor m).
    pose proof (max_round_near a b) as N.
    pose proof (round_near (Qmax a (Num.round b) * f)) as R.
    pose proof (gapFactor_bounds m) as F. fold f in F.
    apply Qabs_Qle_condition in N. apply Qabs_Qle_condition in R.
    apply Qabs_Qle_condition.
    set (u := Qmax a (Num.round b)) in *. set (v := Qmax a b) in *.
    set (r := Num.round (u * f)) in *.
    destruct N as [N1 N2]. destruct (scale_near u v f F N1 N2).
    clearbody u v r f.
    split; lra.
  - rewrite EW. apply max_round_near.
  - rewrite ES. apply max_round_near.
  - rewrite EY. apply round_near.
Qed.

#[global] Instance integral_proper : Proper (Qeq ==> iff) integral.
Proof. intros a b E. unfold integral. now rewrite E. Qed.

Lemma integral_inject z : integral (inject_Z z).
Proof. unfold integral, Num.floor. now rewrite Qfloor_Z. Qed.

Lemma integral_floor a : integral (Num.floor a).
Proof. apply integral_inject. Qed.

Lemma integral_round a : integral (Num.round a).
Proof. apply integral_inject. Qed.

Lemma integral_plus a b : integral a -> integral b -> integral (a + b).
Proof.
  unfold integral, Num.floor. intros A B.
  rewrite <- A, <- B at 1. rewrite <- inject_Z_plus, Qfloor_Z.
  rewrite inject_Z_plus. now rewrite A, B.
Qed.

Lemma integral_opp a : integral a -> integral (- a).
Proof.
  unfold integral, Num.floor. intros A.
  rewrite <- A at 1. rewrite <- inject_Z_opp, Qfloor_Z.
  rewrite inject_Z_opp. now rewrite A.
Qed.

Lemma integral_minus a b : integral a -> integral b -> integral (a - b).
Proof. intros A B. apply integral_plus; [exact A | now apply integral_opp]. Qed.

Lemma integral_max a b : integral a -> integral b -> integral (Num.max a b).
Proof. intros A B. destruct (max_cases a b) as [[_ E] | [_ E]]; now rewrite E. Qed.

Lemma integral_min a b : integral a -> integral b -> integral (Num.min a b).
Proof. intros A B. destruct (min_cases a b) as [[_ E] | [_ E]]; now rewrite E. Qed.

(** Between integers, [a < b + 1] is [a <= b]. *)
Lemma integral_lt_succ a b : integral a -> integral b -> a < b + 1 -> a <= b.
Proof.
  unfold integral, Num.floor. intros A B L.
  rewrite <- A, <- B in L. rewrite <- A, <- B.
  change 1 with (inject_Z 1) in L. rewrite <- inject_Z_plus in L.
  rewrite <- Zlt_Qlt in L. rewrite <- Zle_Qle. lia.
Qed.

(** [randRange] stays within its bounds when they are integers and the
    draw lies in [0, 1). *)
Lemma randRange_bounds r lo hi :
  0 <= r -> r < 1 -> lo <= hi -> integral lo -> integral hi ->
  lo <= randRange r lo hi /\ randRange r lo hi <= hi.
Proof.
  intros R0 R1 LH IL IH. unfold randRange.
  rewrite add_eq.
  assert (E : Num.floor (Num.mul r (Num.add (Num.sub hi lo) 1))
              == Num.floor (r * (hi - lo + 1))).
  { now rewrite mul_eq, add_eq, sub_eq. }
  rewrite E. set (n := hi - lo + 1).
  assert (N : 1 <= n) by (unfold n; lra).
  assert (X0 : 0 <= r * n) by (apply Qmult_le_0_compat; lra).
  assert (X1 : r * n < n).
  { assert (r * n < 1 * n) by (apply Qmult_lt_compat_r; lra). lra. }
  pose proof (floor_le (r * n)) as F1. pose proof (floor_gt (r * n)) as F2.
  assert (G0 : 0 <= Num.floor (r * n)).
  { apply integral_lt_succ.
    - apply (integral_inject 0).
    - apply integral_floor.
    - lra. }
  assert (G1 : Num.floor (r * n) <= hi - lo).
  { apply integral_lt_succ.
    - apply integral_floor.
    - now apply integral_minus.
    - unfold n in *. lra. }
  split; lra.
Qed.

(** C6 as stated fails: on 960 x 480 in normal mode the gap height is 134,
    the unrounded law gives 134.4. *)
Lemma scaleGameplay_gap_is_rounded :
  let w := scaleGameplay normal 960 480 (worldRef (initialState None)) in
  let law := spec_profile normal 960 480 in
  w_pipeGap w == 134 /\ sp_gapHeight law == 134.4 /\
  ~ (w_pipeGap w == sp_gapHeight law).
Proof.
  cbv zeta. split; [vm_compute; reflexivity |].
  split; [vm_compute; reflexivity |].
  vm_compute. discriminate.
Qed.

Lemma marginTop_nonneg H : 0 <= H -> 0 <= marginTop H.
Proof.
  intros P. unfold marginTop.
  apply integral_lt_succ.
  - apply (integral_inject 0).
  - apply integral_round.
  - rewrite mul_eq. pose proof (round_gt (0.06 * H)) as G. lra.
Qed.

Lemma integral_marginTop H : integral (marginTop H).
Proof. apply integral_round. Qed.

Lemma integral_maxTopAllowed world H :
  integral (w_groundY world) -> integral (w_pipeGap world) ->
  integral (maxTopAllowed world H).
Proof.
  intros G P. unfold maxTopAllowed. rewrite !sub_eq.
  repeat apply integral_minus; try assumption. apply integral_round.
Qed.

Lemma integral_minTop world H :
  integral (w_groundY world) -> integral (w_pipeGap world) ->
  integral (minTop world H).
Proof.
  intros G P. unfold minTop.
  apply integral_max; [apply (integral_inject 0) |].
  apply integral_min; [apply integral_marginTop | now apply integral_maxTopAllowed].
Qed.

Lemma minTop_le_maxTop world H : minTop world H <= maxTop world H.
Proof.
  unfold maxTop.
  destruct (max_cases (minTop world H) (maxTopAllowed world H)) as [[L E] | [L E]];
    rewrite E; lra.
Qed.

(** Whatever the canvas, the drawn height lies in the clamped range. *)
Lemma makePipeAtX_clamped random world H x g :
  0 <= random (g_draws g) -> random (g_draws g) < 1 ->
  integral (w_groundY world) -> integral (w_pipeGap world) ->
  minTop world H <= p_topH (fst (makePipeAtX random world H x g)) /\
  p_topH (fst (makePipeAtX random world H x g)) <= maxTop world H.
Proof.
  intros R0 R1 G P. cbn [makePipeAtX fst p_topH].
  apply randRange_bounds; try assumption.
  - apply minTop_le_maxTop.
  - now apply integral_minTop.
  - unfold maxTop. apply integral_max.
    + now apply integral_minTop.
    + now apply integral_maxTopAllowed.
Qed.

(** When the gap fits between the margins the clamp is the identity. *)
Lemma clamp_fits world H :
  0 <= H -> marginTop H <= maxTopAllowed world H ->
  minTop world H == marginTop H /\ maxTop world H == maxTopAllowed world H.
Proof.
  intros P F. pose proof (marginTop_nonneg H P) as M.
  assert (E1 : minTop world H == marginTop H).
  { unfold minTop, minTopAllowed.
    destruct (min_cases (marginTop H) (maxTopAllowed world H)) as [[L1 E1] | [L1 E1]];
      destruct (max_cases 0 (Num.min (marginTop H) (maxTopAllowed world H)))
        as [[L2 E2] | [L2 E2]]; rewrite E2; lra. }
  split; [exact E1 |].
  unfold maxTop.
  destruct (max_cases (minTop world H) (maxTopAllowed world H)) as [[L E] | [L E]];
    rewrite E; lra.
Qed.

Lemma makePipeAtX_fits random world H x g :
  0 <= random (g_draws g) -> random (g_draws g) < 1 ->
  integral (w_groundY world) -> integral (w_pipeGap world) ->
  0 <= H -> marginTop H <= maxTopAllowed world H ->
  marginTop H <= p_topH (fst (makePipeAtX random world H x g)) /\
  p_topH (fst (makePipeAtX random world H x g)) + w_pipeGap world
    <= w_groundY world - marginBottom H.
Proof.
  intros R0 R1 G P HP F.
  destruct (makePipeAtX_clamped random world H x g R0 R1 G P) as [L U].
  destruct (clamp_fits world H HP F) as [E1 E2].
  rewrite E1 in L. rewrite E2 in U.
  split; [exact L |].
  unfold maxTopAllowed in U. rewrite !sub_eq in U. lra.
Qed.

Lemma scaleGameplay_integral m W H world :
  integral (w_groundY (scaleGameplay m W H world)) /\
  integral (w_pipeGap (scaleGameplay m W H world)).
Proof. split; apply integral_round. Qed.

(** C1 (amended).  For every profile computed by the scaling effect and
    every canvas height [H >= 0] in which the gap fits between the margins,
    a pipe made by [makePipeAtX] has [marginTop <= topH] and
    [topH + pipeGap <= groundY - marginBottom], where both margins are
    [0.06*H] rounded to an integer, whatever the random draw in [0, 1). *)
Theorem makePipeAtX_gap_within_margins
  (random : nat -> Q) (m : Mode) (W Hw : Q) (world0 : World) (H x : Q) (g : Gen) :
  let world := scaleGameplay m W Hw world0 in
  let p := fst (makePipeAtX random world H x g) in
  0 <= random (g_draws g) -> random (g_draws g) < 1 ->
  0 <= H ->
  marginTop H <= maxTopAllowed world H ->
  marginTop H <= p_topH p /\
  p_topH p + w_pipeGap world <= w_groundY world - marginBottom H.
Proof.
  intros world p R0 R1 HP F.
  destruct (scaleGameplay_integral m W Hw world0) as [G P].
  exact (makePipeAtX_fits random world H x g R0 R1 G P HP F).
Qed.

Lemma makePipeAtX_gap_within_margins_witness :
  let world := scaleGameplay normal 960 480 (worldRef (initialState None)) in
  let p := fst (makePipeAtX half world 480 1144 {| g_nextId := 0; g_draws := 0 |}) in
  marginTop 480 <= p_topH p /\
  p_topH p + w_pipeGap world <= w_groundY world - marginBottom 480.
Proof.
  apply (makePipeAtX_gap_within_margins half normal 960 480
           (worldRef (initialState None)) 480 1144 {| g_nextId := 0; g_draws := 0 |}).
  - vm_compute. discriminate.
  - vm_compute. reflexivity.
  - vm_compute. discriminate.
  - vm_compute. discriminate.
Defined.

(** C1 as stated fails.  On a 980 x 490 canvas the top of the gap can be
    29, below the unrounded margin 29.4; on a 120 x 60 canvas in easy mode
    the clamp collapses the range to 0 and the gap reaches below the ground
    margin. *)
Lemma makePipeAtX_margin_violated :
  (let world := scaleGameplay normal 980 490 (worldRef (initialState None)) in
   let p := fst (makePipeAtX zero world 490 1200 {| g_nextId := 0; g_draws := 0 |}) in
   p_topH p == 29 /\ ~ (0.06 * 490 <= p_topH p)) /\
  (let world := scaleGameplay easy 120 60 (worldRef (initialState None)) in
   let p := fst (makePipeAtX zero world 60 200 {| g_nextId := 0; g_draws := 0 |}) in
   p_topH p == 0 /\ w_pipeGap world == 23 /\ w_groundY world == 24 /\
   marginTop 60 == 4 /\
   ~ (marginTop 60 <= p_topH p) /\
   ~ (p_topH p + w_pipeGap world <= w_groundY world - marginBottom 60)).
Proof.
  split; cbv zeta.
  - split; [vm_compute; reflexivity |].
    vm_compute. intros C. apply C. reflexivity.
  - repeat split; try (vm_compute; reflexivity);
      vm_compute; intros C; apply C; reflexivity.
Qed.

Section Recycling.

Variable random : nat -> Q.
Variable world : World.
Hypothesis spacing_pos : 0 < w_pipeSpacing world.

Lemma ceiling_unique (q : Q) (z : Z) :
  inject_Z (z - 1) < q -> q <= inject_Z z -> Qceiling q = z.
Proof.
  intros L U.
  pose proof (Qle_ceiling q) as C1. pose proof (Qceiling_lt q) as C2.
  assert (A : inject_Z (z - 1) < inject_Z (Qceiling q)) by lra.
  assert (B : inject_Z (Qceiling q - 1) < inject_Z z) by lra.
  rewrite <- Zlt_Qlt in A, B. lia.
Qed.

Lemma ceiling_pred (q : Q) : Qceiling (q - 1) = (Qceiling q - 1)%Z.
Proof.
  pose proof (Qle_ceiling q) as C1. pose proof (Qceiling_lt q) as C2.
  apply ceiling_unique.
  - replace (Qceiling q - 1 - 1)%Z with ((Qceiling q - 1) + - 1)%Z by lia.
    rewrite inject_Z_plus. change (inject_Z (-1)) with (-(1)). lra.
  - replace (Qceiling q - 1)%Z with (Qceiling q + - 1)%Z by lia.
    rewrite inject_Z_plus. change (inject_Z (-1)) with (-(1)). lra.
Qed.

Lemma overdue_proper x y : x == y -> overdue world x = overdue world y.
Proof. intros E. unfold overdue. now rewrite E. Qed.

Lemma offScreen_spec p :
  offScreen world p = true <-> p_x p + w_pipeWidth world < -10.
Proof. unfold offScreen. now rewrite lt_true, add_eq. Qed.

Lemma lag_pos x :
  x + w_pipeWidth world < -10 ->
  0 < (-10 - w_pipeWidth world - x) / w_pipeSpacing world.
Proof.
  intros L. apply Qlt_shift_div_l; [exact spacing_pos | lra].
Qed.

Lemma lag_nonpos x :
  -10 <= x + w_pipeWidth world ->
  (-10 - w_pipeWidth world - x) / w_pipeSpacing world <= 0.
Proof.
  intros L. apply Qle_shift_div_r; [exact spacing_pos | lra].
Qed.

Lemma overdue_off p : offScreen world p = true -> (1 <= overdue world (p_x p))%nat.
Proof.
  rewrite offScreen_spec. intros L. unfold overdue.
  pose proof (lag_pos _ L) as P.
  pose proof (Qle_ceiling ((-10 - w_pipeWidth world - p_x p) / w_pipeSpacing world)) as C.
  assert (A : inject_Z 0 < inject_Z (Qceiling ((-10 - w_pipeWidth world - p_x p) / w_pipeSpacing world))).
  { change (inject_Z 0) with 0. lra. }
  rewrite <- Zlt_Qlt in A. lia.
Qed.

Lemma overdue_on p : offScreen world p = false -> overdue world (p_x p) = 0%nat.
Proof.
  intros F. assert (L : -10 <= p_x p + w_pipeWidth world).
  { apply Qnot_lt_le. intros C. apply offScreen_spec in C. congruence. }
  unfold overdue. pose proof (lag_nonpos _ L) as P.
  pose proof (Qceiling_lt ((-10 - w_pipeWidth world - p_x p) / w_pipeSpacing world)) as C.
  assert (A : inject_Z (Qceiling ((-10 - w_pipeWidth world - p_x p) / w_pipeSpacing world) - 1) < inject_Z 0).
  { change (inject_Z 0) with 0. lra. }
  rewrite <- Zlt_Qlt in A. lia.
Qed.

(** One pipe further to the right is one turn less overdue. *)
Lemma overdue_next x :
  overdue world (Num.add x (w_pipeSpacing world)) = (overdue world x - 1)%nat.
Proof.
  rewrite (overdue_proper _ (x + w_pipeSpacing world)) by apply add_eq.
  unfold overdue.
  assert (E : (-10 - w_pipeWidth world - (x + w_pipeSpacing world)) / w_pipeSpacing world
              == (-10 - w_pipeWidth world - x) / w_pipeSpacing world - 1).
  { field. lra. }
  rewrite E, ceiling_pred. lia.
Qed.

Lemma offCount_app l1 l2 :
  offCount world (l1 ++ l2) = (offCount world l1 + offCount world l2)%nat.
Proof. unfold offCount. now rewrite List.filter_app, length_app. Qed.

Lemma offCount_le l : (offCount world l <= length l)%nat.
Proof. unfold offCount. apply List.filter_length_le. Qed.

Lemma offCount_one p :
  offCount world [p] = if offScreen world p then 1%nat else 0%nat.
Proof. unfold offCount. cbn. now destruct (offScreen world p). Qed.

Lemma last_cons_some (p0 : Pipe) rest pl :
  last rest = Some pl -> last (p0 :: rest) = Some pl.
Proof. destruct rest; [discriminate | auto]. Qed.

(** The loop returns once it has fuel for the overdue pipes. *)
Lemma recycle_returns H fuel : forall pipes g pl,
  last pipes = Some pl ->
  (2 <= length pipes)%nat ->
  (overdue world (p_x pl) + offCount world pipes < fuel)%nat ->
  exists pipes' g',
    recycle random fuel world H pipes g = Returns (pipes', g') /\
    length pipes' = length pipes.
Proof.
  induction fuel as [| fuel IH]; intros pipes g pl L N F; [lia |].
  destruct pipes as [| p0 rest]; [discriminate |].
  cbn [recycle]. destruct (offScreen world p0) eqn:O0.
  2: { eauto. }
  assert (Lr : last rest = Some pl).
  { destruct rest as [| p1 rest']; [cbn in N; lia | exact L]. }
  rewrite Lr. cbn [makePipeAtX].
  set (p := {| p_id := g_nextId g;
               p_x := Num.add (p_x pl) (w_pipeSpacing world);
               p_topH := _ |}).
  set (g' := {| g_nextId := _; g_draws := _ |}).
  destruct (IH (rest ++ [p]) g' p) as (pipes' & g'' & R & Len).
  - apply last_snoc.
  - rewrite length_app. cbn in *. lia.
  - rewrite offCount_app, offCount_one.
    assert (C0 : offCount world (p0 :: rest) = S (offCount world rest)).
    { unfold offCount. cbn. now rewrite O0. }
    rewrite C0 in F.
    assert (Xp : overdue world (p_x p) = (overdue world (p_x pl) - 1)%nat)
      by apply overdue_next.
    destruct (offScreen world p) eqn:Op.
    + pose proof (overdue_off p Op). lia.
    + lia.
  - exists pipes', g''. split; [exact R |].
    rewrite Len, length_app. cbn. lia.
Qed.

Lemma recycle_total H pipes g :
  length pipes <> 1%nat ->
  exists pipes' g',
    recycle random (recycleFuel world pipes) world H pipes g = Returns (pipes', g') /\
    length pipes' = length pipes.
Proof.
  intros N. destruct pipes as [| p0 rest]; [cbn; eauto |].
  destruct (last (p0 :: rest)) as [pl |] eqn:L.
  2: { apply last_None in L. discriminate. }
  unfold recycleFuel. rewrite L.
  apply (recycle_returns H _ _ g pl L).
  - destruct rest; cbn in *; [congruence | lia].
  - pose proof (offCount_le (p0 :: rest)). lia.
Qed.

End Recycling.


Section Frames.

Variable random : nat -> Q.

Lemma length_movePipes world pipes : length (movePipes world pipes) = length pipes.
Proof. apply length_map. Qed.

Lemma length_pushPipes world H startX spacing n : forall i g,
  length (fst (pushPipes random world H startX spacing i n g)) = n.
Proof.
  induction n as [| n IH]; intros i g; [reflexivity |].
  cbn [pushPipes makePipeAtX].
  specialize (IH (i + 1)%Z {| g_nextId := S (g_nextId g); g_draws := S (g_draws g) |}).
  destruct (pushPipes _ _ _ _ _ _ _ _) as [ps g2]. cbn in *. now rewrite IH.
Qed.

Lemma length_generateInitialPipes world H W g :
  length (fst (generateInitialPipes random world H W g)) = 6%nat.
Proof. apply length_pushPipes. Qed.

(** The pipe phase of a frame returns unless the queue holds exactly one
    pipe. *)
Lemma scrollPipes_total s :
  0 < w_pipeSpacing (worldRef s) ->
  length (pipesRef s) <> 1%nat ->
  exists pipes g, scrollPipes random s = Returns (pipes, g).
Proof.
  intros P N. unfold scrollPipes.
  destruct (recycle_total random (worldRef s) P (sz_h (c_size (seen s)))
              (movePipes (worldRef s) (pipesRef s)) (gen s))
    as (pipes & g & R & _).
  { now rewrite length_movePipes. }
  rewrite R. destruct pipes; [| eauto].
  destruct (generateInitialPipes _ _ _ _ _) as [ps g']. eauto.
Qed.

Lemma update_live s :
  running s = true -> paused s = false ->
  update random s =
    match scrollPipes random s with
    | Returns (pipes, g) =>
        Returns (detect (integrate (worldRef s) (birdRef s)) (withPipes pipes g s))
    | Throws => Throws
    | Diverges => Diverges
    end.
Proof. intros R P. unfold update. now rewrite R, P. Qed.

(** Scanning the pipes touches neither the bird, nor the pipes, nor the
    profile. *)
Lemma credit_frame best0 p s :
  birdRef (fst (credit best0 p s)) = birdRef s /\
  pipesRef (fst (credit best0 p s)) = pipesRef s /\
  worldRef (fst (credit best0 p s)) = worldRef s /\
  gameOverRef (fst (credit best0 p s)) = gameOverRef s /\
  gen (fst (credit best0 p s)) = gen s.
Proof. unfold credit. destruct s. cbn. destruct (beats _ _); cbn; auto. Qed.

Lemma endGame_frame s :
  birdRef (fst (endGame s)) = birdRef s /\
  pipesRef (fst (endGame s)) = pipesRef s /\
  worldRef (fst (endGame s)) = worldRef s /\
  score (fst (endGame s)) = score s /\
  scoreRef (fst (endGame s)) = scoreRef s /\
  best (fst (endGame s)) = best s /\
  scoredSetRef (fst (endGame s)) = scoredSetRef s /\
  gen (fst (endGame s)) = gen s /\
  gameOverRef (fst (endGame s)) = true /\
  snd (endGame s) = (if gameOverRef s then [] else [SfxGameOver]) /\
  paused (fst (endGame s)) = (if gameOverRef s then paused s else true).
Proof. unfold endGame. destruct s as [? ? ? ? ? ? ? ? ? [] ? ? ?]; cbn; tauto. Qed.

Lemma scanPipes_frame best0 world bird pipes : forall s,
  birdRef (scanPipes best0 world bird pipes s).1.1 = birdRef s /\
  pipesRef (scanPipes best0 world bird pipes s).1.1 = pipesRef s /\
  worldRef (scanPipes best0 world bird pipes s).1.1 = worldRef s /\
  gen (scanPipes best0 world bird pipes s).1.1 = gen s.
Proof.
  induction pipes as [| p rest IH]; intros s; [cbn; auto |].
  cbn [scanPipes]. destruct (hitsPipe world bird p).
  - pose proof (endGame_frame s) as F. destruct (endGame s) as [s' e]. cbn in *. tauto.
  - destruct (passed world bird p && negb (bool_decide (p_id p ∈ scoredSetRef s))).
    + pose proof (credit_frame best0 p s) as C.
      destruct (credit best0 p s) as [s1 e1]. cbn in C.
      specialize (IH s1). destruct (scanPipes best0 world bird rest s1) as [[s2 e2] h].
      cbn in *. destruct C as (C1 & C2 & C3 & _ & C5).
      rewrite C1, C2, C3, C5 in IH. exact IH.
    + specialize (IH s). destruct (scanPipes best0 world bird rest s) as [[s2 e2] h].
      exact IH.
Qed.

End Frames.

(** ** The guard of [update] *)

(** The guard of [update]: a session that does not run or is paused is
    left as it is. *)
Lemma update_idle (random : nat -> Q) (s : State) :
  running s = false \/ paused s = true ->
  update random s = Returns (s, []).
Proof.
  intros [R | P]; unfold update.
  - now rewrite R.
  - rewrite P. now rewrite orb_true_r.
Qed.

Lemma update_idle_at_pause :
  update half (togglePause (mount half None 992))
  = Returns (togglePause (mount half None 992), []).
Proof.
  apply (update_idle half (togglePause (mount half None 992))).
  right. vm_compute. reflexivity.
Qed.

(** C4, the defect.  The guard of [update] does not test the terminal
    flag, and [togglePause] does not either: after the bird has hit the
    ground the P key unpauses the terminal session, and the next frame
    moves bird and pipes. *)
Theorem update_runs_when_terminal :
  let inputs := play [] 1 27 ++ [KeyP] in
  let s := stateOf (run half inputs (mount half None 992)) (initialState None) in
  run half inputs (mount half None 992) = Returns (s, [SfxGameOver]) /\
  reachable half s /\
  gameOverRef s = true /\ running s = true /\ paused s = false /\
  exists s' e,
    update half s = Returns (s', e) /\
    b_vy (birdRef s) == 13.5 /\ b_vy (birdRef s') == 14 /\
    (p_x <$> head (pipesRef s)) = Some 1063 /\
    (p_x <$> head (pipesRef s')) = Some 1060 /\
    s' <> s.
Proof.
  cbv zeta.
  assert (R : run half (play [] 1 27 ++ [KeyP]) (mount half None 992)
              = Returns (stateOf (run half (play [] 1 27 ++ [KeyP]) (mount half None 992))
                           (initialState None), [SfxGameOver])).
  { vm_compute. reflexivity. }
  split; [exact R |].
  split; [exists None, 992, (play [] 1 27 ++ [KeyP]), [SfxGameOver]; exact R |].
  split; [vm_compute; reflexivity |].
  split; [vm_compute; reflexivity |].
  split; [vm_compute; reflexivity |].
  eexists _, _. split; [vm_compute; reflexivity |].
  split; [vm_compute; reflexivity |].
  split; [vm_compute; reflexivity |].
  split; [vm_compute; reflexivity |].
  split; [vm_compute; reflexivity |].
  intros C. apply (f_equal (fun x => b_vy (birdRef x))) in C.
  vm_compute in C. discriminate C.
Qed.

(** The unpaused terminal session even scores.  The bird has hit the first
    pipe in the frame in which the centre of that pipe passed it; P resumes
    the frames, and the fifteenth credits the pipe and stores the score. *)
Lemma terminal_session_scores :
  let inputs := play climb 1 333 ++ [Press; Frame; KeyP] ++ repeat Frame 14 in
  let r := run half inputs (mount half None 992) in
  let s := stateOf r (initialState None) in
  r = Returns (s, effectsOf r) /\
  writes (effectsOf r) = [] /\
  gameOverRef s = true /\ running s = true /\ paused s = false /\
  score s = 0%Z /\
  exists s',
    update half s = Returns (s', [StoreBest 1; SfxScore]) /\
    gameOverRef s' = true /\ score s' = 1%Z /\ best s' = ofScore 1.
Proof.
  cbv zeta.
  split; [vm_compute; reflexivity |].
  split; [vm_compute; reflexivity |].
  split; [vm_compute; reflexivity |].
  split; [vm_compute; reflexivity |].
  split; [vm_compute; reflexivity |].
  split; [vm_compute; reflexivity |].
  eexists. split; [vm_compute; reflexivity |].
  repeat split; vm_compute; reflexivity.
Qed.

(** ** A lone pipe *)



(** ** The ground *)

Lemma with_projections b pipes g s :
  birdRef (withBird b (withPipes pipes g s)) = b /\
  pipesRef (withBird b (withPipes pipes g s)) = pipes /\
  worldRef (withBird b (withPipes pipes g s)) = worldRef s /\
  score (withBird b (withPipes pipes g s)) = score s /\
  best (withBird b (withPipes pipes g s)) = best s /\
  scoredSetRef (withBird b (withPipes pipes g s)) = scoredSetRef s /\
  gameOverRef (withBird b (withPipes pipes g s)) = gameOverRef s /\
  running (withBird b (withPipes pipes g s)) = running s /\
  paused (withBird b (withPipes pipes g s)) = paused s.
Proof. destruct s; cbn; tauto. Qed.

(** C5.  In a running, unpaused frame whose integrated bird has
    [y + r > groundY], [update] returns with [y = groundY - r] and the
    terminal flag set; score, scored set, best score and tick counter are
    those of the state before, and the only effect is the game-over sound
    (none if the session was terminal already). *)
Theorem update_ground_collision (random : nat -> Q) (s : State) :
  running s = true -> paused s = false ->
  0 < w_pipeSpacing (worldRef s) ->
  length (pipesRef s) <> 1%nat ->
  w_groundY (worldRef s)
    < b_y (integrate (worldRef s) (birdRef s)) + b_r (birdRef s) ->
  exists s' e,
    update random s = Returns (s', e) /\
    b_y (birdRef s') == w_groundY (worldRef s) - b_r (birdRef s) /\
    gameOverRef s' = true /\
    score s' = score s /\
    scoredSetRef s' = scoredSetRef s /\
    best s' = best s /\
    w_t (worldRef s') = w_t (worldRef s) /\
    e = (if gameOverRef s then [] else [SfxGameOver]).
Proof.
  intros R P SP N G.
  destruct (scrollPipes_total random s SP N) as (pipes & g & Scroll).
  rewrite update_live, Scroll by assumption.
  unfold detect.
  assert (W : worldRef (withPipes pipes g s) = worldRef s) by (now destruct s).
  rewrite W.
  assert (T : Num.gt (Num.add (b_y (integrate (worldRef s) (birdRef s)))
                        (b_r (integrate (worldRef s) (birdRef s))))
                (w_groundY (worldRef s)) = true).
  { unfold Num.gt. apply lt_true. rewrite add_eq. exact G. }
  rewrite T.
  set (b := bird_y _ _).
  pose proof (endGame_frame (withBird b (withPipes pipes g s))) as F.
  pose proof (with_projections b pipes g s) as Q.
  destruct (endGame (withBird b (withPipes pipes g s))) as [s' e].
  cbn [fst snd] in F.
  destruct F as (F1 & F2 & F3 & F4 & F5 & F6 & F7 & F8 & F9 & F10 & F11).
  destruct Q as (Q1 & Q2 & Q3 & Q4 & Q5 & Q6 & Q7 & Q8 & Q9).
  exists s', e. split; [reflexivity |].
  repeat split.
  - rewrite F1, Q1. unfold b. cbn. apply sub_eq.
  - exact F9.
  - congruence.
  - congruence.
  - congruence.
  - congruence.
  - rewrite F10, Q7. reflexivity.
Qed.

Lemma update_ground_collision_witness :
  let s :=
    setRunning true
      (withBird {| b_x := 160; b_y := 431.5; b_vy := 0; b_r := 16; b_wingAngle := 0 |}
         (initialState None)) in
  b_y (integrate (worldRef s) (birdRef s)) == 432 /\
  b_r (birdRef s) == 16 /\
  w_groundY (worldRef s) == 440 /\
  exists s' e,
    update zero s = Returns (s', e) /\
    b_y (birdRef s') == 424 /\
    gameOverRef s' = true /\
    score s' = score s /\
    e = [SfxGameOver].
Proof.
  cbv zeta.
  split; [vm_compute; reflexivity |].
  split; [vm_compute; reflexivity |].
  split; [vm_compute; reflexivity |].
  destruct (update_ground_collision zero
              (setRunning true
                 (withBird {| b_x := 160; b_y := 431.5; b_vy := 0; b_r := 16;
                              b_wingAngle := 0 |}
                    (initialState None))))
    as (s' & e & U & Y & G & S & _ & _ & _ & E).
  - vm_compute. reflexivity.
  - vm_compute. reflexivity.
  - vm_compute. reflexivity.
  - vm_compute. discriminate.
  - vm_compute. reflexivity.
  - exists s', e. repeat split; assumption.
Defined.

(** ** Free flight *)

(** Away from ground and ceiling a frame leaves the bird exactly as the
    integration step made it, whatever the pipes do. *)
Lemma update_free_flight (random : nat -> Q) (s : State) :
  running s = true -> paused s = false ->
  0 < w_pipeSpacing (worldRef s) ->
  length (pipesRef s) <> 1%nat ->
  let bird := integrate (worldRef s) (birdRef s) in
  b_y bird + b_r bird <= w_groundY (worldRef s) ->
  0 <= b_y bird - b_r bird ->
  exists s' e,
    update random s = Returns (s', e) /\ birdRef s' = bird.
Proof.
  intros R P SP N bird G C.
  destruct (scrollPipes_total random s SP N) as (pipes & g & Scroll).
  rewrite update_live, Scroll by assumption.
  fold bird. unfold detect.
  assert (W : worldRef (withPipes pipes g s) = worldRef s) by (now destruct s).
  rewrite W.
  assert (T1 : Num.gt (Num.add (b_y bird) (b_r bird)) (w_groundY (worldRef s)) = false).
  { unfold Num.gt. apply lt_false. rewrite add_eq. exact G. }
  assert (T2 : Num.lt (Num.sub (b_y bird) (b_r bird)) 0 = false).
  { apply lt_false. rewrite sub_eq. exact C. }
  rewrite T1, T2.
  pose proof (scanPipes_frame (c_best (seen (withPipes pipes g s))) (worldRef s) bird
                (pipesRef (withPipes pipes g s))
                (withBird bird (withPipes pipes g s))) as F.
  destruct (scanPipes _ _ _ _ _) as [[s' e] hit]. cbn [fst] in F.
  destruct F as (F1 & _).
  assert (B : birdRef (withBird bird (withPipes pipes g s)) = bird) by (now destruct s).
  rewrite B in F1.
  destruct hit; eexists _, _; (split; [reflexivity |]).
  - exact F1.
  - destruct s'; exact F1.
Qed.

(** C7.  On a 960 x 480 canvas in normal mode gravity is 0.5, the flap
    impulse is -9 and the bird starts at [y = 240] with [vy = 0]; one frame
    gives [vy = 0.5] and [y = 240.5], a flap followed by one frame gives
    [vy = -8.5] and [y = 231.5], whatever the random draws. *)
Theorem first_frames_normal_960x480 (random : nat -> Q) :
  let s0 := mount random None 992 in
  displaySize s0 = {| sz_w := 960; sz_h := 480 |} /\
  mode s0 = normal /\
  w_gravity (worldRef s0) == 0.5 /\
  w_flap (worldRef s0) == -9 /\
  b_y (birdRef s0) == 240 /\
  b_vy (birdRef s0) == 0 /\
  (exists s1 e,
      update random s0 = Returns (s1, e) /\
      b_vy (birdRef s1) == 0.5 /\ b_y (birdRef s1) == 240.5) /\
  (exists s2 e,
      update random (fst (flap random s0)) = Returns (s2, e) /\
      b_vy (birdRef s2) == -8.5 /\ b_y (birdRef s2) == 231.5).
Proof.
  cbv zeta.
  split; [vm_compute; reflexivity |].
  split; [vm_compute; reflexivity |].
  split; [vm_compute; reflexivity |].
  split; [vm_compute; reflexivity |].
  split; [vm_compute; reflexivity |].
  split; [vm_compute; reflexivity |].
  split.
  - destruct (update_free_flight random (mount random None 992))
      as (s1 & e & U & B).
    + vm_compute. reflexivity.
    + vm_compute. reflexivity.
    + vm_compute. reflexivity.
    + vm_compute. discriminate.
    + vm_compute. discriminate.
    + vm_compute. discriminate.
    + exists s1, e. split; [exact U |]. rewrite B.
      split; vm_compute; reflexivity.
  - destruct (update_free_flight random (fst (flap random (mount random None 992))))
      as (s2 & e & U & B).
    + vm_compute. reflexivity.
    + vm_compute. reflexivity.
    + vm_compute. reflexivity.
    + vm_compute. discriminate.
    + vm_compute. discriminate.
    + vm_compute. discriminate.
    + exists s2, e. split; [exact U |]. rewrite B.
      split; vm_compute; reflexivity.
Qed.

(** ** Flapping *)

(** C9.  In a running, unpaused, non-terminal session [flap] assigns the
    profile's flap impulse to [vy], and flapping twice gives the same state
    as flapping once. *)
Theorem flap_sets_velocity_idempotent (random : nat -> Q) (s : State) :
  running s = true -> paused s = false -> gameOverRef s = false ->
  b_vy (birdRef (fst (flap random s))) = w_flap (worldRef s) /\
  snd (flap random s) = [EnsureAudio; SfxFlap] /\
  fst (flap random (fst (flap random s))) = fst (flap random s).
Proof.
  intros R P G. unfold flap, flapAt. destruct s. cbn in R, P, G. subst.
  cbn. repeat split.
Qed.

Lemma flap_sets_velocity_idempotent_witness :
  let s := mount half None 992 in
  b_vy (birdRef (fst (flap half s))) = w_flap (worldRef s) /\
  snd (flap half s) = [EnsureAudio; SfxFlap] /\
  fst (flap half (fst (flap half s))) = fst (flap half s).
Proof.
  apply (flap_sets_velocity_idempotent half (mount half None 992)).
  - vm_compute. reflexivity.
  - vm_compute. reflexivity.
  - vm_compute. reflexivity.
Defined.

(** C10.  In a running, paused, non-terminal session [flap] leaves the
    state unchanged and plays no flap sound (it only touches the audio
    context). *)
Theorem flap_while_paused_is_noop (random : nat -> Q) (s : State) :
  running s = true -> paused s = true -> gameOverRef s = false ->
  flap random s = (s, [EnsureAudio]).
Proof.
  intros R P G. unfold flap, flapAt. now rewrite R, P, G.
Qed.

Lemma flap_while_paused_is_noop_witness :
  flap half (togglePause (mount half None 992))
  = (togglePause (mount half None 992), [EnsureAudio]).
Proof.
  apply (flap_while_paused_is_noop half (togglePause (mount half None 992))).
  - vm_compute. reflexivity.
  - vm_compute. reflexivity.
  - vm_compute. reflexivity.
Defined.

(** ** Score and credit *)

Section Scoring.

Variable random : nat -> Q.

Lemma writes_app e1 e2 : writes (e1 ++ e2) = writes e1 ++ writes e2.
Proof. unfold writes. apply omap_app. Qed.

Lemma passedIds_cons world bird p rest :
  passedIds world bird (p :: rest) =
    if passed world bird p
    then {[p_id p]} ∪ passedIds world bird rest
    else passedIds world bird rest.
Proof. unfold passedIds. cbn. now destruct (passed world bird p). Qed.

Lemma passedIds_tick world bird pipes :
  passedIds (world_tick world) bird pipes = passedIds world bird pipes.
Proof. reflexivity. Qed.

(** One credit: a pipe not yet in the set is added and the score rises
    by one; the new score is stored when it beats [best0]. *)
Lemma credit_spec best0 p s :
  p_id p ∉ scoredSetRef s ->
  scoredSetRef (credit best0 p s).1 = {[p_id p]} ∪ scoredSetRef s /\
  score (credit best0 p s).1 = (score s + 1)%Z /\
  writes (credit best0 p s).2 = List.filter (beats best0) [(score s + 1)%Z] /\
  (counted s -> counted (credit best0 p s).1).
Proof.
  intros N. unfold credit, counted. destruct s; cbn in *.
  destruct (beats best0 _) eqn:B; cbn; repeat split;
    intros ->; rewrite size_union, size_singleton by set_solver; lia.
Qed.

(** The loop over the pipes. *)
Lemma scanPipes_spec best0 world bird pipes : forall s,
  let r := scanPipes best0 world bird pipes s in
  scoredSetRef s ⊆ scoredSetRef r.1.1 /\
  scoredSetRef r.1.1 ⊆ scoredSetRef s ∪ passedIds world bird pipes /\
  (r.2 = false -> passedIds world bird pipes ⊆ scoredSetRef r.1.1) /\
  (counted s -> counted r.1.1) /\
  exists k : nat,
    score r.1.1 = (score s + Z.of_nat k)%Z /\
    writes r.1.2 = List.filter (beats best0) (seqZ (score s + 1) (Z.of_nat k)).
Proof.
  induction pipes as [| p rest IH]; intros s; cbv zeta.
  - cbn [scanPipes fst snd]. unfold passedIds. cbn [List.filter map list_to_set].
    split; [set_solver |]. split; [set_solver |]. split; [set_solver |].
    split; [tauto |]. exists 0%nat. split; [lia | reflexivity].
  - cbn [scanPipes]. destruct (hitsPipe world bird p).
    + pose proof (endGame_frame s) as F. destruct (endGame s) as [s' e].
      cbn [fst snd] in *.
      destruct F as (_ & _ & _ & F4 & _ & _ & F7 & _ & _ & F10 & _).
      rewrite F7.
      split; [set_solver |]. split; [set_solver |]. split; [discriminate |].
      split; [unfold counted; now rewrite F4, F7 |].
      exists 0%nat. split; [lia |]. rewrite F10.
      now destruct (gameOverRef s).
    + rewrite passedIds_cons.
      destruct (passed world bird p) eqn:Pa; cbn [andb].
      * destruct (bool_decide (p_id p ∈ scoredSetRef s)) eqn:In; cbn [negb].
        -- apply bool_decide_eq_true in In.
           specialize (IH s). cbv zeta in IH.
           destruct (scanPipes best0 world bird rest s) as [[s2 e2] hit].
           cbn [fst snd] in *.
           destruct IH as (I1 & I2 & I3 & I4 & k & I5 & I6).
           split; [exact I1 |]. split; [set_solver |].
           split; [intros Hh; specialize (I3 Hh); set_solver |].
           split; [exact I4 |]. exists k. now split.
        -- apply bool_decide_eq_false in In.
           destruct (credit_spec best0 p s In) as (C1 & C2 & C3 & C4).
           destruct (credit best0 p s) as [s1 e1]. cbn [fst snd] in *.
           specialize (IH s1). cbv zeta in IH.
           destruct (scanPipes best0 world bird rest s1) as [[s2 e2] hit].
           cbn [fst snd] in *.
           destruct IH as (I1 & I2 & I3 & I4 & k & I5 & I6).
           rewrite C1 in I1, I2.
           split; [set_solver |]. split; [set_solver |].
           split; [intros Hh; specialize (I3 Hh); set_solver |].
           split; [tauto |].
           exists (S k). split; [lia |].
           rewrite writes_app, C3, I6, C2.
           rewrite (seqZ_cons (score s + 1) (Z.of_nat (S k))) by lia.
           replace (Z.succ (score s + 1)) with (score s + 1 + 1)%Z by lia.
           replace (Z.pred (Z.of_nat (S k))) with (Z.of_nat k) by lia.
           cbn [List.filter]. now destruct (beats best0 (score s + 1)).
      * specialize (IH s). cbv zeta in IH.
        destruct (scanPipes best0 world bird rest s) as [[s2 e2] hit].
        cbn [fst snd] in *. exact IH.
Qed.

(** The same for a whole frame. *)
Lemma update_spec s s' e :
  update random s = Returns (s', e) ->
  scoredSetRef s ⊆ scoredSetRef s' /\
  scoredSetRef s' ⊆
    scoredSetRef s ∪ passedIds (worldRef s') (birdRef s') (pipesRef s') /\
  (w_t (worldRef s') = (w_t (worldRef s) + 1)%Z ->
   passedIds (worldRef s') (birdRef s') (pipesRef s') ⊆ scoredSetRef s') /\
  (counted s -> counted s') /\
  exists k : nat,
    score s' = (score s + Z.of_nat k)%Z /\
    writes e = List.filter (beats (c_best (seen s))) (seqZ (score s + 1) (Z.of_nat k)).
Proof.
  unfold update. destruct (negb (running s) || paused s).
  { intros [= <- <-].
    split; [set_solver |]. split; [set_solver |]. split; [lia |].
    split; [tauto |]. exists 0%nat. split; [lia | reflexivity]. }
  destruct (scrollPipes random s) as [[pipes g] | |]; try discriminate.
  intros [= U]. revert U. unfold detect.
  assert (W : worldRef (withPipes pipes g s) = worldRef s) by (now destruct s).
  assert (S2 : seen (withPipes pipes g s) = seen s) by (now destruct s).
  assert (P0 : pipesRef (withPipes pipes g s) = pipes) by (now destruct s).
  rewrite W, S2, P0.
  destruct (Num.gt _ _).
  - set (b := bird_y _ _). intros U.
    pose proof (endGame_frame (withBird b (withPipes pipes g s))) as F.
    pose proof (with_projections b pipes g s) as Q.
    rewrite U in F. cbn [fst snd] in F.
    destruct F as (F1 & F2 & F3 & F4 & F5 & F6 & F7 & F8 & F9 & F10 & F11).
    destruct Q as (Q1 & Q2 & Q3 & Q4 & Q5 & Q6 & Q7 & Q8 & Q9).
    rewrite F7, Q6, F3, Q3.
    split; [set_solver |]. split; [set_solver |]. split; [lia |].
    split; [unfold counted; now rewrite F4, F7, Q4, Q6 |].
    exists 0%nat. split; [lia |]. rewrite F10, Q7. destruct (gameOverRef s); reflexivity.
  - set (b := if Num.lt _ _ then _ else _).
    pose proof (scanPipes_spec (c_best (seen s)) (worldRef s) b pipes
                  (withBird b (withPipes pipes g s))) as Sp.
    pose proof (scanPipes_frame (c_best (seen s)) (worldRef s) b pipes
                  (withBird b (withPipes pipes g s))) as Fr.
    pose proof (with_projections b pipes g s) as Q.
    destruct Q as (Q1 & Q2 & Q3 & Q4 & Q5 & Q6 & Q7 & Q8 & Q9).
    cbv zeta in Sp.
    destruct (scanPipes _ _ _ _ _) as [[s3 e3] hit]. cbn [fst snd] in *.
    destruct Sp as (I1 & I2 & I3 & I4 & k & I5 & I6).
    destruct Fr as (R1 & R2 & R3 & R4).
    rewrite Q1 in R1. rewrite Q2 in R2. rewrite Q3 in R3.
    rewrite Q6 in I1, I2. rewrite Q4 in I5, I6.
    assert (I4' : counted s -> counted s3).
    { intros C. apply I4. unfold counted in *. now rewrite Q4, Q6. }
    destruct hit; intros [= <- <-].
    + rewrite R1, R2, R3.
      split; [exact I1 |]. split; [exact I2 |]. split; [lia |].
      split; [exact I4' |]. exists k. now split.
    + assert (E1 : birdRef (withWorld (world_tick (worldRef s)) s3) = b)
        by (destruct s3; exact R1).
      assert (E2 : pipesRef (withWorld (world_tick (worldRef s)) s3) = pipes)
        by (destruct s3; exact R2).
      assert (E3 : worldRef (withWorld (world_tick (worldRef s)) s3)
                   = world_tick (worldRef s)) by (now destruct s3).
      assert (E4 : scoredSetRef (withWorld (world_tick (worldRef s)) s3)
                   = scoredSetRef s3) by (now destruct s3).
      assert (E5 : score (withWorld (world_tick (worldRef s)) s3) = score s3)
        by (now destruct s3).
      rewrite E1, E2, E3, E4, E5, passedIds_tick.
      split; [exact I1 |]. split; [exact I2 |]. split; [auto |].
      split; [| exists k; now split].
      intros C. unfold counted in *. rewrite E4, E5. now apply I4'.
Qed.

(** A credit happens as soon as the loop reaches the pipe: a pipe whose
    centre has passed is in the set when neither it nor a pipe before it
    ends the loop, whatever happens behind it. *)
Lemma scanPipes_prefix best0 world bird : forall pre p post s,
  (forall q, q ∈ pre ++ [p] -> hitsPipe world bird q = false) ->
  passed world bird p = true ->
  p_id p ∈ scoredSetRef (scanPipes best0 world bird (pre ++ p :: post) s).1.1.
Proof.
  induction pre as [| q pre IH]; intros p post s NH Pa.
  - cbn [app scanPipes]. rewrite (NH p) by set_solver.
    rewrite Pa. cbn [andb].
    destruct (bool_decide (p_id p ∈ scoredSetRef s)) eqn:In; cbn [negb].
    + apply bool_decide_eq_true in In.
      pose proof (scanPipes_spec best0 world bird post s) as Sp. cbv zeta in Sp.
      destruct (scanPipes best0 world bird post s) as [[s2 e2] hit].
      cbn [fst snd] in *. destruct Sp as (I1 & _). set_solver.
    + apply bool_decide_eq_false in In.
      destruct (credit_spec best0 p s In) as (C1 & _).
      destruct (credit best0 p s) as [s1 e1]. cbn [fst snd] in *.
      pose proof (scanPipes_spec best0 world bird post s1) as Sp. cbv zeta in Sp.
      destruct (scanPipes best0 world bird post s1) as [[s2 e2] hit].
      cbn [fst snd] in *. destruct Sp as (I1 & _). rewrite C1 in I1. set_solver.
  - assert (NH' : forall q', q' ∈ pre ++ [p] -> hitsPipe world bird q' = false).
    { intros q' I. apply NH. set_solver. }
    cbn [app scanPipes]. rewrite (NH q) by set_solver.
    destruct (passed world bird q && negb (bool_decide (p_id q ∈ scoredSetRef s))).
    + destruct (credit best0 q s) as [s1 e1].
      pose proof (IH p post s1 NH' Pa) as K.
      destruct (scanPipes best0 world bird (pre ++ p :: post) s1) as [[s2 e2] hit].
      exact K.
    + pose proof (IH p post s NH' Pa) as K.
      destruct (scanPipes best0 world bird (pre ++ p :: post) s) as [[s2 e2] hit].
      exact K.
Qed.

(** The same for a frame that runs and does not end on the ground. *)
Lemma update_prefix s s' e pre p post :
  update random s = Returns (s', e) ->
  running s = true -> paused s = false ->
  b_y (integrate (worldRef s) (birdRef s)) + b_r (birdRef s) <= w_groundY (worldRef s) ->
  pipesRef s' = pre ++ p :: post ->
  (forall q, q ∈ pre ++ [p] -> hitsPipe (worldRef s') (birdRef s') q = false) ->
  passed (worldRef s') (birdRef s') p = true ->
  p_id p ∈ scoredSetRef s'.
Proof.
  intros U R P G. revert U. rewrite update_live by assumption.
  destruct (scrollPipes random s) as [[pipes g] | |]; try discriminate.
  intros [= U]. revert U. unfold detect.
  assert (W : worldRef (withPipes pipes g s) = worldRef s) by (now destruct s).
  assert (S2 : seen (withPipes pipes g s) = seen s) by (now destruct s).
  assert (P0 : pipesRef (withPipes pipes g s) = pipes) by (now destruct s).
  rewrite W, S2, P0.
  assert (T : Num.gt (Num.add (b_y (integrate (worldRef s) (birdRef s)))
                        (b_r (integrate (worldRef s) (birdRef s))))
                (w_groundY (worldRef s)) = false).
  { unfold Num.gt. apply lt_false. rewrite add_eq. exact G. }
  rewrite T.
  set (b := if Num.lt _ _ then _ else _).
  pose proof (scanPipes_frame (c_best (seen s)) (worldRef s) b pipes
                (withBird b (withPipes pipes g s))) as Fr.
  pose proof (with_projections b pipes g s) as Q.
  destruct Q as (Q1 & Q2 & Q3 & _).
  destruct (scanPipes _ _ _ _ _) as [[s3 e3] hit] eqn:Sc. cbn [fst snd] in Fr.
  destruct Fr as (R1 & R2 & R3 & _).
  rewrite Q1 in R1. rewrite Q2 in R2. rewrite Q3 in R3.
  assert (K : forall s4, birdRef s4 = b -> pipesRef s4 = pipes ->
                (worldRef s4 = worldRef s \/ worldRef s4 = world_tick (worldRef s)) ->
                scoredSetRef s4 = scoredSetRef s3 ->
                pipesRef s4 = pre ++ p :: post ->
                (forall q, q ∈ pre ++ [p] -> hitsPipe (worldRef s4) (birdRef s4) q = false) ->
                passed (worldRef s4) (birdRef s4) p = true ->
                p_id p ∈ scoredSetRef s4).
  { intros s4 B4 P4 W4 S4 E NH Pa. rewrite B4 in NH, Pa. rewrite P4 in E.
    assert (NH' : forall q, q ∈ pre ++ [p] -> hitsPipe (worldRef s) b q = false).
    { intros q I. rewrite <- (NH q I). now destruct W4 as [-> | ->]. }
    assert (Pa' : passed (worldRef s) b p = true).
    { rewrite <- Pa. now destruct W4 as [-> | ->]. }
    pose proof (scanPipes_prefix (c_best (seen s)) (worldRef s) b pre p post
                  (withBird b (withPipes pipes g s)) NH' Pa') as In.
    rewrite <- E, Sc in In. cbn [fst] in In. now rewrite S4. }
  destruct hit; intros [= <- <-].
  - apply K; auto.
  - apply K; try (now destruct s3). right. now destruct s3.
Qed.




End Scoring.

(** ** Restarts *)

Section Resets.

Variable random : nat -> Q.

Lemma resetGame_at s : resetGame random s = resetGameAt random (displaySize s) s.
Proof. reflexivity. Qed.

Lemma flap_at s : flap random s = flapAt random (displaySize s) s.
Proof. reflexivity. Qed.

Lemma resetGameAt_fresh size s :
  score (resetGameAt random size s) = 0%Z /\
  scoreRef (resetGameAt random size s) = 0%Z /\
  scoredSetRef (resetGameAt random size s) = ∅ /\
  gameOverRef (resetGameAt random size s) = false /\
  running (resetGameAt random size s) = running s /\
  paused (resetGameAt random size s) = paused s /\
  best (resetGameAt random size s) = best s /\
  worldRef (resetGameAt random size s) = worldRef s /\
  displaySize (resetGameAt random size s) = displaySize s /\
  mode (resetGameAt random size s) = mode s /\
  length (pipesRef (resetGameAt random size s)) = 6%nat /\
  seen (resetGameAt random size s) = seen s.
Proof.
  unfold resetGameAt.
  pose proof (length_generateInitialPipes random (worldRef s)
                (sz_h size) (sz_w size) (gen s)) as L.
  destruct (generateInitialPipes _ _ _ _ _) as [pipes g].
  destruct s; cbn in *. tauto.
Qed.

Lemma resetGame_fresh s :
  score (resetGame random s) = 0%Z /\
  scoreRef (resetGame random s) = 0%Z /\
  scoredSetRef (resetGame random s) = ∅ /\
  gameOverRef (resetGame random s) = false /\
  running (resetGame random s) = running s /\
  paused (resetGame random s) = paused s /\
  best (resetGame random s) = best s /\
  worldRef (resetGame random s) = worldRef s /\
  displaySize (resetGame random s) = displaySize s /\
  mode (resetGame random s) = mode s /\
  length (pipesRef (resetGame random s)) = 6%nat.
Proof.
  rewrite resetGame_at.
  destruct (resetGameAt_fresh (displaySize s) s)
    as (A1 & A2 & A3 & A4 & A5 & A6 & A7 & A8 & A9 & A10 & A11 & _).
  tauto.
Qed.

Lemma sizeOrModeEffect_fresh s :
  score (sizeOrModeEffect random s) = 0%Z /\
  scoreRef (sizeOrModeEffect random s) = 0%Z /\
  scoredSetRef (sizeOrModeEffect random s) = ∅ /\
  gameOverRef (sizeOrModeEffect random s) = false /\
  running (sizeOrModeEffect random s) = true /\
  paused (sizeOrModeEffect random s) = false /\
  best (sizeOrModeEffect random s) = best s /\
  worldRef (sizeOrModeEffect random s)
    = scaleGameplay (mode s) (sz_w (displaySize s)) (sz_h (displaySize s)) (worldRef s) /\
  displaySize (sizeOrModeEffect random s) = displaySize s /\
  mode (sizeOrModeEffect random s) = mode s /\
  length (pipesRef (sizeOrModeEffect random s)) = 6%nat.
Proof.
  unfold sizeOrModeEffect.
  pose proof (length_generateInitialPipes random
                (scaleGameplay (mode s) (sz_w (displaySize s)) (sz_h (displaySize s))
                   (worldRef s))
                (sz_h (displaySize s)) (sz_w (displaySize s)) (gen s)) as L.
  destruct (generateInitialPipes _ _ _ _ _) as [pipes g].
  destruct s; cbn in *. tauto.
Qed.

Lemma resetGameAt_pipes size s :
  pipesRef (resetGameAt random size s)
    = (generateInitialPipes random (worldRef s) (sz_h size) (sz_w size) (gen s)).1 /\
  gen (resetGameAt random size s)
    = (generateInitialPipes random (worldRef s) (sz_h size) (sz_w size) (gen s)).2 /\
  birdRef (resetGameAt random size s)
    = {| b_x := Num.round (Num.mul (sz_w size) 0.18);
         b_y := Num.round (Num.mul (sz_h size) 0.5);
         b_vy := 0; b_r := b_r (birdRef s); b_wingAngle := 0 |}.
Proof.
  unfold resetGameAt. destruct (generateInitialPipes _ _ _ _ _) as [pipes g].
  now destruct s.
Qed.

Lemma sizeOrModeEffect_pipes s :
  let world := scaleGameplay (mode s) (sz_w (displaySize s)) (sz_h (displaySize s))
                 (worldRef s) in
  pipesRef (sizeOrModeEffect random s)
    = (generateInitialPipes random world (sz_h (displaySize s))
         (sz_w (displaySize s)) (gen s)).1 /\
  gen (sizeOrModeEffect random s)
    = (generateInitialPipes random world (sz_h (displaySize s))
         (sz_w (displaySize s)) (gen s)).2 /\
  birdRef (sizeOrModeEffect random s)
    = {| b_x := Num.round (Num.mul (sz_w (displaySize s)) 0.18);
         b_y := Num.round (Num.mul (sz_h (displaySize s)) 0.5);
         b_vy := 0;
         b_r := Num.max 14 (Num.round (Num.mul 16 (Num.div (sz_h (displaySize s)) 480)));
         b_wingAngle := 0 |}.
Proof.
  cbv zeta. unfold sizeOrModeEffect.
  destruct (generateInitialPipes _ _ _ _ _) as [pipes g].
  now destruct s.
Qed.

End Resets.

(** ** What every handler keeps *)

(** A property of states that the setters, the resets and a returning frame
    keep is kept by every handler, and so holds in every reachable state. *)
Section Invariant.

Variable random : nat -> Q.
Variable Inv : State -> Prop.

Hypothesis Inv_setPaused : forall v s, Inv s -> Inv (setPaused v s).
Hypothesis Inv_setRunning : forall s, Inv s -> Inv (setRunning true s).
Hypothesis Inv_setMode : forall m s, Inv s -> Inv (setMode m s).
Hypothesis Inv_setDisplaySize : forall v s, Inv s -> Inv (setDisplaySize v s).
Hypothesis Inv_withBird : forall b s, Inv s -> Inv (withBird b s).
Hypothesis Inv_withSeen : forall v s, Inv s -> Inv (withSeen v s).
Hypothesis Inv_reset : forall size s, Inv s -> Inv (resetGameAt random size s).
Hypothesis Inv_effect : forall s, Inv s -> Inv (sizeOrModeEffect random s).
Hypothesis Inv_init : forall item, Inv (sizeOrModeEffect random (initialState item)).
Hypothesis Inv_update :
  forall s s' e, Inv s -> update random s = Returns (s', e) -> Inv s'.

Lemma Inv_flapAt size s : Inv s -> Inv (flapAt random size s).1.
Proof.
  intros I. unfold flapAt.
  destruct (negb (running s)); [cbn [fst]; auto |].
  destruct (gameOverRef s); [cbn [fst]; auto |].
  destruct (negb (paused s)); cbn [fst]; auto.
Qed.

Lemma Inv_react i s s' e :
  Inv s -> react random i s = Returns (s', e) -> Inv s'.
Proof.
  intros I. destruct i; cbn [react].
  - now apply Inv_update.
  - unfold press. pose proof (Inv_flapAt (displaySize s) s I) as K.
    rewrite <- flap_at in K. destruct (flap random s) as [s1 e1].
    now intros [= <- _].
  - unfold keySpace. pose proof (Inv_flapAt (c_size (seen s)) s I) as K.
    destruct (flapAt random _ s) as [s1 e1]. now intros [= <- _].
  - intros [= <- _]. unfold togglePause.
    destruct (negb (running s)); auto.
  - unfold pauseButton, togglePause. destruct (running s); cbn [negb];
      intros [= <- _]; auto.
  - intros [= <- _]. unfold keyR. destruct (running s); auto.
  - intros [= <- _]. unfold keyEnter.
    destruct (negb (running s)); [auto |].
    destruct (gameOverRef s); auto.
  - unfold startButton.
    destruct (negb (running s));
      [intros [= <- _]; rewrite resetGame_at; auto |].
    destruct (gameOverRef s);
      [intros [= <- _]; rewrite resetGame_at; auto |].
    pose proof (Inv_flapAt (displaySize s) s I) as K.
    rewrite <- flap_at in K. destruct (flap random s) as [s1 e1].
    now intros [= <- _].
  - intros [= <- _]. unfold restartButton. rewrite resetGame_at. auto.
  - intros [= <- _]. unfold selectMode.
    rewrite resetGame_at. destruct (decide (m = mode s)); auto 6.
  - intros [= <- _]. unfold resize.
    destruct (sameSize _ _); auto.
Qed.

Lemma Inv_recapture s s' : Inv s' -> Inv (recapture s s').
Proof.
  intros I. unfold recapture, capture. destruct (_ && _); auto.
Qed.

Lemma Inv_handle i s s' e :
  Inv s -> handle random i s = Returns (s', e) -> Inv s'.
Proof.
  intros I. unfold handle.
  destruct (react random i s) as [[s1 e1] | |] eqn:R; try discriminate.
  intros [= <- _]. apply Inv_recapture. exact (Inv_react i s s1 e1 I R).
Qed.

Lemma Inv_run inputs : forall s s' e,
  Inv s -> run random inputs s = Returns (s', e) -> Inv s'.
Proof.
  induction inputs as [| i rest IH]; intros s s' e I; cbn [run].
  - now intros [= <- _].
  - destruct (handle random i s) as [[s1 e1] | |] eqn:Hd; try discriminate.
    destruct (run random rest s1) as [[s2 e2] | |] eqn:Rn; try discriminate.
    intros [= <- _]. eapply IH; [| exact Rn].
    eapply Inv_handle; eauto.
Qed.

Lemma Inv_mount item innerWidth : Inv (mount random item innerWidth).
Proof.
  unfold mount, capture, resize. apply Inv_withSeen.
  destruct (sameSize _ _); auto.
Qed.

Lemma Inv_reachable s : reachable random s -> Inv s.
Proof.
  intros (item & iw & inputs & e & R).
  eapply Inv_run; [apply Inv_mount | exact R].
Qed.

End Invariant.

Section Sessions.

Variable random : nat -> Q.

Lemma counted_fresh s :
  score s = 0%Z -> scoredSetRef s = ∅ -> counted s.
Proof. unfold counted. intros -> ->. now rewrite size_empty. Qed.

Lemma counted_resetGameAt size s : counted (resetGameAt random size s).
Proof.
  destruct (resetGameAt_fresh random size s) as (A & _ & B & _).
  now apply counted_fresh.
Qed.

Lemma counted_sizeOrModeEffect s : counted (sizeOrModeEffect random s).
Proof.
  destruct (sizeOrModeEffect_fresh random s) as (A & _ & B & _). now apply counted_fresh.
Qed.

(** In every state of every session the score is the number of credited
    pipes. *)
Lemma reachable_counted s : reachable random s -> counted s.
Proof.
  apply (Inv_reachable random counted).
  - intros v s0. now destruct s0.
  - intros s0. now destruct s0.
  - intros m s0. now destruct s0.
  - intros v s0. now destruct s0.
  - intros b s0. now destruct s0.
  - intros v s0. now destruct s0.
  - intros size s0 _. apply counted_resetGameAt.
  - intros s0 _. apply counted_sizeOrModeEffect.
  - intros item. apply counted_sizeOrModeEffect.
  - intros s0 s' e C U. now apply (update_spec random s0 s' e U).
Qed.

End Sessions.


(** * More about the code *)

(** ** The recycling loop *)

Section RecyclingMore.

Variable random : nat -> Q.
Variable world : World.


End RecyclingMore.

(** ** What a frame leaves alone *)

Section FrameMore.

Variable random : nat -> Q.

Lemma credit_flags best0 p s :
  running (credit best0 p s).1 = running s /\
  paused (credit best0 p s).1 = paused s /\
  mode (credit best0 p s).1 = mode s /\
  displaySize (credit best0 p s).1 = displaySize s.
Proof. unfold credit. destruct s; cbn. destruct (beats _ _); cbn; auto. Qed.

Lemma endGame_flags s :
  running (endGame s).1 = running s /\
  mode (endGame s).1 = mode s /\
  displaySize (endGame s).1 = displaySize s.
Proof. unfold endGame. destruct s as [? ? ? ? ? ? ? ? ? [] ? ? ?]; cbn; auto. Qed.

Lemma scanPipes_flags best0 world bird pipes : forall s,
  running (scanPipes best0 world bird pipes s).1.1 = running s /\
  mode (scanPipes best0 world bird pipes s).1.1 = mode s /\
  displaySize (scanPipes best0 world bird pipes s).1.1 = displaySize s.
Proof.
  induction pipes as [| p rest IH]; intros s; [cbn; auto |].
  cbn [scanPipes]. destruct (hitsPipe world bird p).
  - pose proof (endGame_flags s) as F. destruct (endGame s) as [s' e]. exact F.
  - destruct (passed world bird p && negb (bool_decide (p_id p ∈ scoredSetRef s))).
    + pose proof (credit_flags best0 p s) as C.
      destruct (credit best0 p s) as [s1 e1]. cbn [fst] in C.
      specialize (IH s1). destruct (scanPipes best0 world bird rest s1) as [[s2 e2] h].
      cbn [fst] in *. destruct C as (C1 & _ & C3 & C4).
      rewrite C1, C3, C4 in IH. exact IH.
    + specialize (IH s). destruct (scanPipes best0 world bird rest s) as [[s2 e2] h].
      exact IH.
Qed.

(** What [detect] does to the parts of the state that are not the bird, the
    score or the flags. *)
Lemma detect_frame bird s :
  pipesRef (detect bird s).1 = pipesRef s /\
  gen (detect bird s).1 = gen s /\
  running (detect bird s).1 = running s /\
  mode (detect bird s).1 = mode s /\
  displaySize (detect bird s).1 = displaySize s /\
  (worldRef (detect bird s).1 = worldRef s \/
   worldRef (detect bird s).1 = world_tick (worldRef s)).
Proof.
  unfold detect. destruct (Num.gt _ _).
  - set (b := bird_y _ _).
    pose proof (endGame_frame (withBird b s)) as F.
    pose proof (endGame_flags (withBird b s)) as G.
    destruct (endGame (withBird b s)) as [s' e]. cbn [fst snd] in *.
    destruct F as (_ & F2 & F3 & _ & _ & _ & _ & F8 & _).
    destruct G as (G1 & G2 & G3).
    rewrite F2, F3, F8, G1, G2, G3. destruct s; cbn. auto 10.
  - set (b := if Num.lt _ _ then _ else _).
    pose proof (scanPipes_frame (c_best (seen s)) (worldRef s) b (pipesRef s) (withBird b s)) as F.
    pose proof (scanPipes_flags (c_best (seen s)) (worldRef s) b (pipesRef s) (withBird b s)) as G.
    destruct (scanPipes _ _ _ _ _) as [[s' e] hit]. cbn [fst snd] in *.
    destruct F as (_ & F2 & F3 & F4). destruct G as (G1 & G2 & G3).
    assert (Q : pipesRef (withBird b s) = pipesRef s /\ gen (withBird b s) = gen s /\
                running (withBird b s) = running s /\ mode (withBird b s) = mode s /\
                displaySize (withBird b s) = displaySize s /\
                worldRef (withBird b s) = worldRef s) by (destruct s; cbn; auto 10).
    destruct Q as (Q1 & Q2 & Q3 & Q4 & Q5 & Q6).
    rewrite Q1 in F2. rewrite Q2 in F4. rewrite Q3 in G1. rewrite Q4 in G2.
    rewrite Q5 in G3. rewrite Q6 in F3.
    destruct hit; cbn [fst].
    + auto 10.
    + destruct s'; cbn in *. auto 10.
Qed.

(** The queue, the generator and the profile after a frame. *)
Lemma update_frame s s' e :
  update random s = Returns (s', e) ->
  running s' = running s /\
  mode s' = mode s /\
  displaySize s' = displaySize s /\
  (worldRef s' = worldRef s \/ worldRef s' = world_tick (worldRef s)) /\
  ((pipesRef s' = pipesRef s /\ gen s' = gen s) \/
   scrollPipes random s = Returns (pipesRef s', gen s')).
Proof.
  unfold update. destruct (negb (running s) || paused s).
  { intros [= <- _]. auto 10. }
  destruct (scrollPipes random s) as [[pipes g] | |]; try discriminate.
  intros [= U].
  pose proof (detect_frame (integrate (worldRef s) (birdRef s)) (withPipes pipes g s)) as F.
  rewrite U in F. cbn [fst] in F.
  destruct F as (F1 & F2 & F3 & F4 & F5 & F6).
  assert (Q : pipesRef (withPipes pipes g s) = pipes /\ gen (withPipes pipes g s) = g /\
              running (withPipes pipes g s) = running s /\
              mode (withPipes pipes g s) = mode s /\
              displaySize (withPipes pipes g s) = displaySize s /\
              worldRef (withPipes pipes g s) = worldRef s) by (destruct s; cbn; auto 10).
  destruct Q as (Q1 & Q2 & Q3 & Q4 & Q5 & Q6).
  rewrite Q1 in F1. rewrite Q2 in F2. rewrite Q3 in F3. rewrite Q4 in F4.
  rewrite Q5 in F5. rewrite Q6 in F6.
  split; [exact F3 |]. split; [exact F4 |]. split; [exact F5 |]. split; [exact F6 |].
  right. now rewrite F1, F2.
Qed.

(** The pipe phase on a queue of at least two pipes: no refill, same
    length, first pipe on screen. *)
Lemma scrollPipes_spec s :
  0 < w_pipeSpacing (worldRef s) ->
  (2 <= length (pipesRef s))%nat ->
  exists pipes g,
    scrollPipes random s = Returns (pipes, g) /\
    recycle random (recycleFuel (worldRef s) (movePipes (worldRef s) (pipesRef s)))
      (worldRef s) (sz_h (c_size (seen s)))
      (movePipes (worldRef s) (pipesRef s)) (gen s) = Returns (pipes, g) /\
    length pipes = length (pipesRef s).
Proof.
  intros P N. unfold scrollPipes.
  destruct (recycle_total random (worldRef s) P (sz_h (c_size (seen s)))
              (movePipes (worldRef s) (pipesRef s)) (gen s))
    as (pipes & g & R & L).
  { rewrite length_movePipes. lia. }
  rewrite length_movePipes in L.
  rewrite R. destruct pipes as [| p rest]; [cbn in L; lia |].
  exists (p :: rest), g. auto.
Qed.

End FrameMore.

(** ** Sessions are well formed *)

Section WellFormed.

Variable random : nat -> Q.

Lemma scaleGameplay_spacing m W H world :
  260 <= w_pipeSpacing (scaleGameplay m W H world).
Proof.
  cbn [scaleGameplay w_pipeSpacing].
  destruct (max_cases 260 (Num.round (Num.mul W 0.32))) as [[L E] | [L E]];
    rewrite E; lra.
Qed.

Lemma wellFormed_sizeOrModeEffect s : wellFormed (sizeOrModeEffect random s).
Proof.
  destruct (sizeOrModeEffect_fresh random s)
    as (_ & _ & _ & _ & R & _ & _ & W & _ & _ & L).
  repeat split; [exact L | | exact R].
  rewrite W. apply scaleGameplay_spacing.
Qed.

Lemma wellFormed_resetGameAt size s :
  wellFormed s -> wellFormed (resetGameAt random size s).
Proof.
  intros (L & P & R).
  destruct (resetGameAt_fresh random size s)
    as (_ & _ & _ & _ & R' & _ & _ & W & _ & _ & L' & _).
  repeat split; [exact L' | now rewrite W | now rewrite R'].
Qed.

Lemma wellFormed_setPaused v s : wellFormed (setPaused v s) <-> wellFormed s.
Proof. now destruct s. Qed.

Lemma wellFormed_withBird b s : wellFormed (withBird b s) <-> wellFormed s.
Proof. now destruct s. Qed.

Lemma wellFormed_setRunning s : wellFormed s -> wellFormed (setRunning true s).
Proof. destruct s. unfold wellFormed. cbn. tauto. Qed.

(** A frame of a well-formed session returns, and the session stays well
    formed. *)
Lemma wellFormed_update s :
  wellFormed s ->
  exists s' e, update random s = Returns (s', e) /\ wellFormed s'.
Proof.
  intros (L & P & R).
  destruct (paused s) eqn:Pa.
  { exists s, []. split; [| now repeat split].
    unfold update. now rewrite Pa, orb_true_r. }
  assert (P0 : 0 < w_pipeSpacing (worldRef s)) by lra.
  destruct (scrollPipes_spec random s P0) as (pipes & g & Sc & _ & Len); [lia |].
  rewrite update_live, Sc by assumption.
  destruct (detect _ _) as [s' e] eqn:D.
  exists s', e. split; [reflexivity |].
  pose proof (detect_frame (integrate (worldRef s) (birdRef s)) (withPipes pipes g s)) as F.
  rewrite D in F. cbn [fst] in F.
  destruct F as (F1 & _ & F3 & _ & _ & F6).
  assert (Q : pipesRef (withPipes pipes g s) = pipes /\
              running (withPipes pipes g s) = running s /\
              worldRef (withPipes pipes g s) = worldRef s) by (destruct s; cbn; auto).
  destruct Q as (Q1 & Q3 & Q6).
  rewrite Q1 in F1. rewrite Q3 in F3. rewrite Q6 in F6.
  repeat split.
  - rewrite F1. lia.
  - destruct F6 as [-> | ->]; [exact P | exact P].
  - congruence.
Qed.

Lemma wellFormed_kept i s s' e :
  wellFormed s -> handle random i s = Returns (s', e) -> wellFormed s'.
Proof.
  apply (Inv_handle random wellFormed).
  - intros v s0 Wf. now apply wellFormed_setPaused.
  - apply wellFormed_setRunning.
  - intros m s0. now destruct s0.
  - intros v s0. now destruct s0.
  - intros b s0 Wf. now apply wellFormed_withBird.
  - intros v s0. now destruct s0.
  - intros size s0. apply wellFormed_resetGameAt.
  - intros s0 _. apply wellFormed_sizeOrModeEffect.
  - intros s0 s1 e1 Wf U. destruct (wellFormed_update s0 Wf) as (s2 & e2 & U2 & Wf2).
    rewrite U in U2. now injection U2 as -> _.
Qed.

Lemma react_returns i s :
  wellFormed s -> exists s' e, react random i s = Returns (s', e).
Proof.
  intros Wf. destruct i; cbn [react]; try (eexists _, _; reflexivity).
  - destruct (wellFormed_update s Wf) as (s' & e & U & _). eauto.
  - destruct (press random s) as [s' e]. eauto.
  - destruct (keySpace random s) as [s' e]. eauto.
  - destruct (pauseButton s) as [s' e]. eauto.
  - destruct (startButton random s) as [s' e]. eauto.
Qed.

Lemma wellFormed_handle i s :
  wellFormed s ->
  exists s' e, handle random i s = Returns (s', e) /\ wellFormed s'.
Proof.
  intros Wf. destruct (react_returns i s Wf) as (s1 & e1 & R).
  assert (Hd : handle random i s = Returns (recapture s s1, e1))
    by (unfold handle; now rewrite R).
  eexists _, _. split; [exact Hd |]. exact (wellFormed_kept i s _ _ Wf Hd).
Qed.

Lemma wellFormed_run inputs : forall s,
  wellFormed s ->
  exists s' e, run random inputs s = Returns (s', e) /\ wellFormed s'.
Proof.
  induction inputs as [| i rest IH]; intros s Wf; cbn [run].
  - eauto.
  - destruct (wellFormed_handle i s Wf) as (s1 & e1 & Hd & Wf1).
    destruct (IH s1 Wf1) as (s2 & e2 & Rn & Wf2).
    rewrite Hd, Rn. eauto.
Qed.

Lemma wellFormed_mount item innerWidth : wellFormed (mount random item innerWidth).
Proof.
  apply (Inv_mount random wellFormed).
  - intros v s0. now destruct s0.
  - intros v s0. now destruct s0.
  - intros s0 _. apply wellFormed_sizeOrModeEffect.
  - intros item0. apply wellFormed_sizeOrModeEffect.
Qed.

Lemma reachable_wellFormed s : reachable random s -> wellFormed s.
Proof.
  intros (item & iw & inputs & e & R).
  destruct (wellFormed_run inputs _ (wellFormed_mount item iw)) as (s' & e' & R' & Wf).
  congruence.
Qed.

End WellFormed.

(** X2.  A mounted session never throws and never hangs: every sequence
    of inputs (frames, presses, keys, buttons, mode changes, resizes) runs
    to its end. *)
Theorem session_never_throws
  (random : nat -> Q) (item : option JsNumber) (innerWidth : Q) (inputs : list Input) :
  exists s e, run random inputs (mount random item innerWidth) = Returns (s, e).
Proof.
  destruct (wellFormed_run random inputs _ (wellFormed_mount random item innerWidth))
    as (s & e & R & _).
  eauto.
Qed.

(** X3.  In every reachable state the session is running, the queue
    holds exactly six pipes, the spacing is at least 260, and the next
    frame returns. *)
Theorem session_keeps_six_pipes_and_runs (random : nat -> Q) (s : State) :
  reachable random s ->
  running s = true /\
  length (pipesRef s) = 6%nat /\
  260 <= w_pipeSpacing (worldRef s) /\
  exists s' e, update random s = Returns (s', e).
Proof.
  intros R. pose proof (reachable_wellFormed random s R) as Wf.
  destruct (wellFormed_update random s Wf) as (s' & e & U & _).
  destruct Wf as (L & P & Ru). eauto 10.
Qed.

Lemma session_keeps_six_pipes_and_runs_witness :
  let s := stateOf (run half (play steady 1 440) (mount half None 992)) (initialState None) in
  running s = true /\
  length (pipesRef s) = 6%nat /\
  260 <= w_pipeSpacing (worldRef s) /\
  exists s' e, update half s = Returns (s', e).
Proof.
  apply (session_keeps_six_pipes_and_runs half).
  exists None, 992, (play steady 1 440),
    (effectsOf (run half (play steady 1 440) (mount half None 992))).
  vm_compute. reflexivity.
Defined.

(** ** The score counts pipes *)

(** C3 (amended).  In every reachable state, after a frame: the score is
    the number of distinct pipes credited so far, so it rose by exactly one
    per newly credited pipe and no pipe is credited twice; a pipe is newly
    credited only if its centre has passed the bird; if the frame ran to
    its end (the tick counter advanced: no collision) every queued pipe
    whose centre has passed the bird is credited; and in any frame of an
    unpaused session that does not end on the ground, a queued pipe whose
    centre has passed the bird is credited when the bird hits neither that
    pipe nor a pipe before it in the queue. *)
Theorem score_counts_each_pipe_once
  (random : nat -> Q) (s s' : State) (e : list Effect) :
  reachable random s ->
  update random s = Returns (s', e) ->
  score s' = Z.of_nat (size (scoredSetRef s')) /\
  scoredSetRef s ⊆ scoredSetRef s' /\
  score s' = (score s + Z.of_nat (size (scoredSetRef s' ∖ scoredSetRef s)))%Z /\
  scoredSetRef s' ⊆
    scoredSetRef s ∪ passedIds (worldRef s') (birdRef s') (pipesRef s') /\
  (w_t (worldRef s') = (w_t (worldRef s) + 1)%Z ->
   passedIds (worldRef s') (birdRef s') (pipesRef s') ⊆ scoredSetRef s') /\
  (paused s = false ->
   b_y (integrate (worldRef s) (birdRef s)) + b_r (birdRef s)
     <= w_groundY (worldRef s) ->
   forall pre p post,
     pipesRef s' = pre ++ p :: post ->
     (forall q, q ∈ pre ++ [p] -> hitsPipe (worldRef s') (birdRef s') q = false) ->
     passed (worldRef s') (birdRef s') p = true ->
     p_id p ∈ scoredSetRef s').
Proof.
  intros R U. pose proof (reachable_counted random s R) as C.
  destruct (update_spec random s s' e U) as (A & B & D & E & _).
  specialize (E C). unfold counted in *.
  split; [exact E |]. split; [exact A |].
  split; [| split; [assumption | split; [assumption |]]].
  - rewrite size_difference by exact A.
    pose proof (subseteq_size _ _ A). lia.
  - intros Pa G pre p post Ep NH Ps.
    destruct (reachable_wellFormed random s R) as (_ & _ & Ru).
    exact (update_prefix random s s' e pre p post U Ru Pa G Ep NH Ps).
Qed.

Lemma score_counts_each_pipe_once_witness :
  let s := stateOf (run half (play steady 1 333) (mount half None 992)) (initialState None) in
  let s' := stateOf (update half s) (initialState None) in
  score s = 0%Z /\ score s' = 1%Z /\
  score s' = Z.of_nat (size (scoredSetRef s')) /\
  scoredSetRef s ⊆ scoredSetRef s' /\
  score s' = (score s + Z.of_nat (size (scoredSetRef s' ∖ scoredSetRef s)))%Z /\
  scoredSetRef s' ⊆
    scoredSetRef s ∪ passedIds (worldRef s') (birdRef s') (pipesRef s') /\
  (w_t (worldRef s') = (w_t (worldRef s) + 1)%Z ->
   passedIds (worldRef s') (birdRef s') (pipesRef s') ⊆ scoredSetRef s') /\
  (paused s = false ->
   b_y (integrate (worldRef s) (birdRef s)) + b_r (birdRef s)
     <= w_groundY (worldRef s) ->
   forall pre p post,
     pipesRef s' = pre ++ p :: post ->
     (forall q, q ∈ pre ++ [p] -> hitsPipe (worldRef s') (birdRef s') q = false) ->
     passed (worldRef s') (birdRef s') p = true ->
     p_id p ∈ scoredSetRef s').
Proof.
  cbv zeta.
  split; [vm_compute; reflexivity |].
  split; [vm_compute; reflexivity |].
  apply (score_counts_each_pipe_once half
           (stateOf (run half (play steady 1 333) (mount half None 992)) (initialState None))
           (stateOf (update half
              (stateOf (run half (play steady 1 333) (mount half None 992))
                 (initialState None))) (initialState None))
           [StoreBest 1; SfxScore]).
  - exists None, 992, (play steady 1 333),
      (effectsOf (run half (play steady 1 333) (mount half None 992))).
    vm_compute. reflexivity.
  - vm_compute. reflexivity.
Defined.

(** C3 as stated fails: the frame in which the centre of the first pipe
    passes the bird ends in a collision with that pipe, and the pipe is not
    credited. *)
Lemma crossing_frame_without_credit :
  let inputs := play climb 1 333 ++ [Press] in
  let s := stateOf (run half inputs (mount half None 992)) (initialState None) in
  reachable half s /\
  gameOverRef s = false /\
  exists p p' rest rest' s' e,
    pipesRef s = p :: rest /\
    update half s = Returns (s', e) /\
    pipesRef s' = p' :: rest' /\
    p_id p' = p_id p /\
    passed (worldRef s) (birdRef s) p = false /\
    passed (worldRef s') (birdRef s') p' = true /\
    score s' = score s /\
    (p_id p' ∉ scoredSetRef s') /\
    gameOverRef s' = true /\
    e = [SfxGameOver].
Proof.
  cbv zeta. split.
  { exists None, 992, (play climb 1 333 ++ [Press]),
      (effectsOf (run half (play climb 1 333 ++ [Press]) (mount half None 992))).
    vm_compute. reflexivity. }
  split; [vm_compute; reflexivity |].
  eexists _, _, _, _, _, _.
  split; [vm_compute; reflexivity |].
  split; [vm_compute; reflexivity |].
  split; [vm_compute; reflexivity |].
  split; [vm_compute; reflexivity |].
  split; [vm_compute; reflexivity |].
  split; [vm_compute; reflexivity |].
  split; [vm_compute; reflexivity |].
  split; [| split; vm_compute; reflexivity].
  apply not_elem_of_empty.
Qed.

(** ** Frames return *)




(** ** Pipes are distinct objects *)

Section Allocation.

Variable random : nat -> Q.

Lemma map_id_movePipes world pipes : map p_id (movePipes world pipes) = map p_id pipes.
Proof. unfold movePipes. rewrite map_map. reflexivity. Qed.

Lemma elem_of_movePipes world pipes p :
  p ∈ movePipes world pipes -> exists p0, p0 ∈ pipes /\ p_id p = p_id p0.
Proof.
  unfold movePipes. intros E. apply list_elem_of_fmap in E.
  destruct E as (p0 & -> & E). eauto.
Qed.

Lemma recycle_allocated world H fuel : forall pipes g pipes' g',
  recycle random fuel world H pipes g = Returns (pipes', g') ->
  NoDup (map p_id pipes) ->
  (forall p, p ∈ pipes -> (p_id p < g_nextId g)%nat) ->
  NoDup (map p_id pipes') /\
  (forall p, p ∈ pipes' -> (p_id p < g_nextId g')%nat) /\
  (g_nextId g <= g_nextId g')%nat.
Proof.
  induction fuel as [| fuel IH]; intros pipes g pipes' g';
    (destruct pipes as [| p0 rest]; cbn [recycle]; [now intros [= <- <-] |]);
    (destruct (offScreen world p0); [| now intros [= <- <-]]); [discriminate |].
  destruct (last rest) as [pl |] eqn:L; [| discriminate].
  cbn [makePipeAtX]. intros R N B.
  apply IH in R.
  - destruct R as (R1 & R2 & R3). cbn [g_nextId] in *.
    split; [exact R1 |]. split; [exact R2 | lia].
  - rewrite map_app. cbn [map p_id].
    apply NoDup_app. split; [now apply NoDup_cons in N |].
    split; [| apply NoDup_singleton].
    intros i Hi Hn. apply list_elem_of_singleton in Hn. subst i.
    apply list_elem_of_fmap in Hi. destruct Hi as (p & E & Hp).
    cbn [p_id] in E.
    assert (p ∈ p0 :: rest) by (now right).
    specialize (B p ltac:(assumption)). lia.
  - cbn [g_nextId]. intros p Hp. apply elem_of_app in Hp.
    destruct Hp as [Hp | Hp].
    + assert (p ∈ p0 :: rest) by (now right).
      specialize (B p ltac:(assumption)). lia.
    + apply list_elem_of_singleton in Hp. subst p. cbn. lia.
Qed.

Lemma pushPipes_allocated world H startX spacing n : forall i g,
  let r := pushPipes random world H startX spacing i n g in
  NoDup (map p_id r.1) /\
  (forall p, p ∈ r.1 -> (g_nextId g <= p_id p < g_nextId r.2)%nat) /\
  g_nextId r.2 = (g_nextId g + n)%nat.
Proof.
  induction n as [| n IH]; intros i g; cbv zeta.
  - cbn. split; [apply NoDup_nil_2 |]. split; [| lia].
    intros p Hp. now apply not_elem_of_nil in Hp.
  - cbn [pushPipes makePipeAtX].
    set (g1 := {| g_nextId := S (g_nextId g); g_draws := S (g_draws g) |}).
    specialize (IH (i + 1)%Z g1). cbv zeta in IH.
    destruct (pushPipes _ _ _ _ _ _ _ _) as [ps g2]. cbn [fst snd] in *.
    destruct IH as (N & B & E). subst g1. cbn [g_nextId] in *.
    split; [| split; [| lia]].
    + cbn [map p_id]. apply NoDup_cons. split; [| exact N].
      intros Hi. apply list_elem_of_fmap in Hi. destruct Hi as (p & Ep & Hp).
      specialize (B p Hp). lia.
    + intros p Hp. apply elem_of_cons in Hp. destruct Hp as [-> | Hp].
      * cbn. lia.
      * specialize (B p Hp). lia.
Qed.

Lemma generateInitialPipes_allocated world H W g :
  let r := generateInitialPipes random world H W g in
  NoDup (map p_id r.1) /\
  (forall p, p ∈ r.1 -> (g_nextId g <= p_id p < g_nextId r.2)%nat) /\
  g_nextId r.2 = (g_nextId g + 6)%nat.
Proof. apply pushPipes_allocated. Qed.

Lemma allocated_fresh_pipes world H W g :
  allocated (generateInitialPipes random world H W g).2
    (generateInitialPipes random world H W g).1 ∅.
Proof.
  destruct (generateInitialPipes_allocated world H W g) as (N & B & _).
  split; [exact N |]. split.
  - intros p Hp. specialize (B p Hp). lia.
  - intros i Hi. now apply not_elem_of_empty in Hi.
Qed.

Lemma scrollPipes_allocated s pipes g :
  allocated (gen s) (pipesRef s) (scoredSetRef s) ->
  scrollPipes random s = Returns (pipes, g) ->
  allocated g pipes (scoredSetRef s).
Proof.
  intros (N & B & C). unfold scrollPipes.
  destruct (recycle _ _ _ _ _ _) as [[ps g0] | |] eqn:R; try discriminate.
  apply recycle_allocated in R.
  2: { now rewrite map_id_movePipes. }
  2: { intros p Hp. apply elem_of_movePipes in Hp. destruct Hp as (p0 & Hp & ->).
       now apply B. }
  destruct R as (R1 & R2 & R3).
  destruct ps as [| p rest].
  - destruct (generateInitialPipes_allocated (worldRef s) (sz_h (c_size (seen s)))
                (sz_w (c_size (seen s))) g0) as (N' & B' & E').
    destruct (generateInitialPipes _ _ _ _ _) as [ps' g'']. cbn [fst snd] in *.
    intros [= <- <-]. split; [exact N' |]. split.
    + intros p Hp. specialize (B' p Hp). lia.
    + intros i Hi. specialize (C i Hi). lia.
  - intros [= <- <-]. split; [exact R1 |]. split; [exact R2 |].
    intros i Hi. specialize (C i Hi). lia.
Qed.

Lemma passedIds_in world bird pipes i :
  i ∈ passedIds world bird pipes -> exists p, p ∈ pipes /\ p_id p = i.
Proof.
  unfold passedIds. rewrite elem_of_list_to_set.
  intros Hi. apply list_elem_of_fmap in Hi. destruct Hi as (p & -> & Hp).
  apply list_elem_of_In, List.filter_In in Hp. destruct Hp as [Hp _].
  apply list_elem_of_In in Hp. eauto.
Qed.

Lemma allocatedIn_update s s' e :
  allocatedIn s -> update random s = Returns (s', e) -> allocatedIn s'.
Proof.
  intros A U.
  destruct (update_frame random s s' e U) as (_ & _ & _ & _ & P).
  destruct (update_spec random s s' e U) as (_ & Sub & _).
  assert (A' : allocated (gen s') (pipesRef s') (scoredSetRef s)).
  { destruct P as [[-> ->] | Sc]; [exact A |].
    exact (scrollPipes_allocated s _ _ A Sc). }
  destruct A' as (N & B & C). split; [exact N |]. split; [exact B |].
  intros i Hi. apply Sub in Hi. apply elem_of_union in Hi.
  destruct Hi as [Hi | Hi]; [now apply C |].
  apply passedIds_in in Hi. destruct Hi as (p & Hp & <-). now apply B.
Qed.

Lemma allocatedIn_resetGameAt size s : allocatedIn (resetGameAt random size s).
Proof.
  unfold allocatedIn. destruct (resetGameAt_pipes random size s) as (P & G & _).
  destruct (resetGameAt_fresh random size s) as (_ & _ & S & _).
  rewrite P, G, S. apply allocated_fresh_pipes.
Qed.

Lemma allocatedIn_sizeOrModeEffect s : allocatedIn (sizeOrModeEffect random s).
Proof.
  unfold allocatedIn. destruct (sizeOrModeEffect_pipes random s) as (P & G & _).
  destruct (sizeOrModeEffect_fresh random s) as (_ & _ & S & _).
  rewrite P, G, S. apply allocated_fresh_pipes.
Qed.

Lemma allocatedIn_run inputs s s' e :
  allocatedIn s -> run random inputs s = Returns (s', e) -> allocatedIn s'.
Proof.
  apply (Inv_run random allocatedIn).
  - intros v s0. now destruct s0.
  - intros s0. now destruct s0.
  - intros m s0. now destruct s0.
  - intros v s0. now destruct s0.
  - intros b s0. now destruct s0.
  - intros v s0. now destruct s0.
  - intros size s0 _. apply allocatedIn_resetGameAt.
  - intros s0 _. apply allocatedIn_sizeOrModeEffect.
  - apply allocatedIn_update.
Qed.

Lemma allocatedIn_mount item innerWidth : allocatedIn (mount random item innerWidth).
Proof.
  apply (Inv_mount random allocatedIn).
  - intros v s0. now destruct s0.
  - intros v s0. now destruct s0.
  - intros s0 _. apply allocatedIn_sizeOrModeEffect.
  - intros item0. apply allocatedIn_sizeOrModeEffect.
Qed.

End Allocation.

(** X9.  In every reachable state the queued pipes are pairwise distinct
    objects, and the next pipe to be made is neither in the scored set nor
    in the queue: a recycled pipe never inherits a credit. *)
Theorem new_pipe_is_never_scored
  (random : nat -> Q) (s : State) (world : World) (H x : Q) :
  reachable random s ->
  let p := (makePipeAtX random world H x (gen s)).1 in
  NoDup (map p_id (pipesRef s)) /\
  (p_id p ∉ scoredSetRef s) /\
  p_id p ∉ map p_id (pipesRef s).
Proof.
  intros (item & iw & inputs & e & R). cbv zeta.
  destruct (allocatedIn_run random inputs _ _ _ (allocatedIn_mount random item iw) R)
    as (N & B & C).
  split; [exact N |]. cbn [makePipeAtX fst p_id]. split.
  - intros Hi. specialize (C _ Hi). lia.
  - intros Hi. apply list_elem_of_fmap in Hi. destruct Hi as (p & E & Hp).
    specialize (B p Hp). lia.
Qed.

Lemma new_pipe_is_never_scored_witness :
  let s := stateOf (run half (play steady 1 440) (mount half None 992)) (initialState None) in
  let p := (makePipeAtX half (worldRef s) 480 2000 (gen s)).1 in
  NoDup (map p_id (pipesRef s)) /\
  (p_id p ∉ scoredSetRef s) /\
  p_id p ∉ map p_id (pipesRef s).
Proof.
  apply (new_pipe_is_never_scored half
           (stateOf (run half (play steady 1 440) (mount half None 992)) (initialState None))).
  exists None, 992, (play steady 1 440),
    (effectsOf (run half (play steady 1 440) (mount half None 992))).
  vm_compute. reflexivity.
Defined.

(** ** The recycling loop, on its own *)




(** ** Which canvases are tall enough *)

Lemma gap_fits_tall (m : Mode) (W H : Q) (world0 : World) :
  78 <= H ->
  marginTop H <= maxTopAllowed (scaleGameplay m W H world0) H.
Proof.
  intros T. unfold maxTopAllowed, marginBottom, marginTop.
  cbn [scaleGameplay w_groundY w_pipeGap].
  set (mg := Num.round (Num.mul 0.06 H)).
  assert (Mg : mg <= 0.06 * H + 0.5).
  { unfold mg. rewrite mul_eq. apply round_le. }
  set (gy := Num.round (Num.sub H (Num.max 36 (Num.mul 0.08 H)))).
  assert (Gy : H - Qmax 36 (0.08 * H) - 0.5 < gy).
  { unfold gy. rewrite sub_eq, mul_eq. apply round_gt. }
  set (base := Num.max (Num.mul 120 (Num.div H 480)) (Num.round (Num.mul H 0.28))).
  assert (Ba : base <= 0.28 * H + 0.5).
  { unfold base.
    pose proof (round_le (H * 0.28)) as R.
    destruct (max_cases (Num.mul 120 (Num.div H 480)) (Num.round (Num.mul H 0.28)))
      as [[L E] | [L E]]; rewrite E.
    - rewrite mul_eq. lra.
    - rewrite mul_eq, div_eq.
      assert (X : 120 * (H / 480) == 0.25 * H) by (field; discriminate).
      rewrite X. lra. }
  set (gap := Num.round (Num.mul base (gapFactor m))).
  assert (Ga : gap <= (0.28 * H + 0.5) * 1.35 + 0.5).
  { unfold gap. rewrite mul_eq.
    pose proof (round_le (base * gapFactor m)) as R.
    assert (B0 : 0 <= base).
    { unfold base.
      destruct (max_cases (Num.mul 120 (Num.div H 480)) (Num.round (Num.mul H 0.28)))
        as [[L E] | [L E]].
      - assert (0 <= Num.mul 120 (Num.div H 480)).
        { rewrite mul_eq, div_eq.
          assert (X : 120 * (H / 480) == 0.25 * H) by (field; discriminate).
          rewrite X. lra. }
        lra.
      - rewrite E, mul_eq, div_eq.
        assert (X : 120 * (H / 480) == 0.25 * H) by (field; discriminate).
        rewrite X. lra. }
    assert (base * gapFactor m <= (0.28 * H + 0.5) * 1.35).
    { destruct m; cbn [gapFactor]; lra. }
    lra. }
  fold gap. clearbody mg gy gap. rewrite !sub_eq.
  destruct (Q.max_spec 36 (0.08 * H)) as [[L E] | [L E]]; rewrite E in Gy; lra.
Qed.

(** X4.  On every canvas at least 78 pixels high, in every mode and at
    every width, the gap fits between the rounded margins, so every pipe
    made for that canvas keeps both margins, and the margin is positive. *)
Theorem tall_canvas_keeps_margins
  (random : nat -> Q) (m : Mode) (W H : Q) (world0 : World) (x : Q) (g : Gen) :
  let world := scaleGameplay m W H world0 in
  let p := (makePipeAtX random world H x g).1 in
  78 <= H ->
  0 <= random (g_draws g) -> random (g_draws g) < 1 ->
  marginTop H <= maxTopAllowed world H /\
  marginTop H <= p_topH p /\
  p_topH p + w_pipeGap world <= w_groundY world - marginBottom H /\
  0 < marginTop H.
Proof.
  intros world p T R0 R1.
  pose proof (gap_fits_tall m W H world0 T) as F.
  destruct (scaleGameplay_integral m W H world0) as [G P].
  assert (HP : 0 <= H) by lra.
  destruct (makePipeAtX_fits random world H x g R0 R1 G P HP F) as [A B].
  split; [exact F |]. split; [exact A |]. split; [exact B |].
  unfold marginTop. rewrite mul_eq.
  pose proof (round_gt (0.06 * H)). lra.
Qed.

Lemma tall_canvas_keeps_margins_witness :
  let world := scaleGameplay hard 400 200 (worldRef (initialState None)) in
  let p := (makePipeAtX half world 200 500 {| g_nextId := 0; g_draws := 0 |}).1 in
  marginTop 200 <= maxTopAllowed world 200 /\
  marginTop 200 <= p_topH p /\
  p_topH p + w_pipeGap world <= w_groundY world - marginBottom 200 /\
  0 < marginTop 200.
Proof.
  apply (tall_canvas_keeps_margins half hard 400 200 (worldRef (initialState None))
           500 {| g_nextId := 0; g_draws := 0 |}).
  - vm_compute. discriminate.
  - vm_compute. discriminate.
  - vm_compute. reflexivity.
Defined.

(** ** The collapsed range *)

(** X5.  Whatever the canvas, the top height that [makePipeAtX] draws is
    a non-negative integer; when the gap does not fit between the margins
    it is the single value [max(0, groundY - marginBottom - pipeGap)]. *)
Theorem makePipeAtX_never_negative
  (random : nat -> Q) (m : Mode) (W Hw : Q) (world0 : World) (H x : Q) (g : Gen) :
  let world := scaleGameplay m W Hw world0 in
  let p := (makePipeAtX random world H x g).1 in
  0 <= random (g_draws g) -> random (g_draws g) < 1 ->
  0 <= p_topH p /\
  integral (p_topH p) /\
  (maxTopAllowed world H < marginTop H ->
   p_topH p == Num.max 0 (maxTopAllowed world H)).
Proof.
  intros world p R0 R1.
  destruct (scaleGameplay_integral m W Hw world0) as [G P].
  destruct (makePipeAtX_clamped random world H x g R0 R1 G P) as [L U].
  fold p in L, U.
  assert (M0 : 0 <= minTop world H).
  { unfold minTop.
    destruct (max_cases 0 (Num.min (minTopAllowed H) (maxTopAllowed world H)))
      as [[A E] | [A E]]; rewrite E; lra. }
  split; [lra |]. split.
  - unfold p. cbn [makePipeAtX fst p_topH]. unfold randRange.
    rewrite add_eq. apply integral_plus; [apply integral_floor |].
    now apply integral_minTop.
  - intros D.
    assert (E1 : minTop world H == Num.max 0 (maxTopAllowed world H)).
    { unfold minTop, minTopAllowed.
      destruct (min_cases (marginTop H) (maxTopAllowed world H)) as [[A E] | [A E]];
        [lra |].
      destruct (max_cases 0 (Num.min (marginTop H) (maxTopAllowed world H)))
        as [[A1 E1] | [A1 E1]];
        destruct (max_cases 0 (maxTopAllowed world H)) as [[A2 E2] | [A2 E2]];
        rewrite E1, E2; lra. }
    assert (E2 : maxTop world H == minTop world H).
    { unfold maxTop.
      destruct (max_cases (minTop world H) (maxTopAllowed world H)) as [[A E] | [A E]];
        [| exact E].
      rewrite E.
      destruct (max_cases 0 (maxTopAllowed world H)) as [[A2 E3] | [A2 E3]]; lra. }
    lra.
Qed.

Lemma makePipeAtX_never_negative_witness :
  let world := scaleGameplay easy 120 60 (worldRef (initialState None)) in
  let p := (makePipeAtX half world 60 200 {| g_nextId := 0; g_draws := 0 |}).1 in
  0 <= p_topH p /\
  integral (p_topH p) /\
  (maxTopAllowed world 60 < marginTop 60 ->
   p_topH p == Num.max 0 (maxTopAllowed world 60)).
Proof.
  apply (makePipeAtX_never_negative half easy 120 60 (worldRef (initialState None))
           60 200 {| g_nextId := 0; g_draws := 0 |}).
  - vm_compute. discriminate.
  - vm_compute. reflexivity.
Defined.

(** ** The canvas size *)

(** X6.  [recomputeSize] always gives an integer width in [400, 1440] and
    an integer height in [200, 720], with [2*h] within one pixel of [w]. *)
Theorem recomputeSize_bounds (innerWidth : Q) :
  let size := recomputeSize innerWidth in
  400 <= sz_w size /\ sz_w size <= 1440 /\
  200 <= sz_h size /\ sz_h size <= 720 /\
  integral (sz_w size) /\ integral (sz_h size) /\
  Qabs (2 * sz_h size - sz_w size) <= 1.
Proof.
  cbv zeta. unfold recomputeSize. cbn [sz_w sz_h].
  set (vw := Num.max 400 (Num.min 1440 (Num.sub innerWidth 32))).
  assert (V : 400 <= vw /\ vw <= 1440).
  { unfold vw.
    destruct (min_cases 1440 (Num.sub innerWidth 32)) as [[A E] | [A E]];
      destruct (max_cases 400 (Num.min 1440 (Num.sub innerWidth 32)))
        as [[A1 E1] | [A1 E1]]; rewrite E1; lra. }
  set (w := Num.round vw).
  assert (Iw : integral w) by apply integral_round.
  assert (Bw : 400 <= w /\ w <= 1440).
  { pose proof (round_le vw). pose proof (round_gt vw). fold w in H, H0.
    split.
    - apply (integral_lt_succ 400 w); [apply (integral_inject 400) | exact Iw | lra].
    - apply (integral_lt_succ w 1440); [exact Iw | apply (integral_inject 1440) | lra]. }
  set (h := Num.round (Num.div w 2)).
  assert (Ih : integral h) by apply integral_round.
  assert (Bh : w / 2 - 0.5 < h /\ h <= w / 2 + 0.5).
  { unfold h. rewrite div_eq. split; [apply round_gt | apply round_le]. }
  assert (D : w / 2 == 0.5 * w) by (field; discriminate).
  rewrite D in Bh.
  split; [lra |]. split; [lra |]. split.
  { apply (integral_lt_succ 200 h); [apply (integral_inject 200) | exact Ih | lra]. }
  split.
  { apply (integral_lt_succ h 720); [exact Ih | apply (integral_inject 720) | lra]. }
  split; [exact Iw |]. split; [exact Ih |].
  apply Qabs_Qle_condition. split; lra.
Qed.

(** ** The first pipes *)

Lemma pushPipes_lookup random world H startX spacing n : forall i g (k : nat) p,
  (pushPipes random world H startX spacing i n g).1 !! k = Some p ->
  p_x p == startX + (inject_Z i + inject_Z (Z.of_nat k)) * spacing /\
  p_id p = (g_nextId g + k)%nat /\
  p_topH p = randRange (random (g_draws g + k)%nat) (minTop world H) (maxTop world H).
Proof.
  induction n as [| n IH]; intros i g k p; [discriminate |].
  cbn [pushPipes makePipeAtX].
  set (g1 := {| g_nextId := S (g_nextId g); g_draws := S (g_draws g) |}).
  specialize (IH (i + 1)%Z g1).
  destruct (pushPipes _ _ _ _ _ _ _ _) as [ps g2]. cbn [fst] in *.
  destruct k as [| k]; cbn [lookup list_lookup].
  - intros [= <-]. cbn [p_x p_id p_topH].
    rewrite add_eq, mul_eq. change (inject_Z (Z.of_nat 0)) with 0.
    rewrite !Nat.add_0_r. split; [ring | auto].
  - intros L. destruct (IH k p L) as (A & B & C). subst g1. cbn [g_nextId g_draws] in *.
    rewrite A, B, C, inject_Z_plus, Nat2Z.inj_succ, <- Z.add_1_l, inject_Z_plus.
    change (inject_Z 1) with 1.
    split; [ring |]. split; [lia |]. f_equal. f_equal. lia.
Qed.

(** X7.  [generateInitialPipes] makes six pipes; the k-th lies at
    [W + round(0.6 * spacing) + k * spacing] and is the k-th object
    allocated by the call. *)
Theorem generateInitialPipes_layout
  (random : nat -> Q) (world : World) (H W : Q) (g : Gen) :
  let r := generateInitialPipes random world H W g in
  length r.1 = 6%nat /\
  g_nextId r.2 = (g_nextId g + 6)%nat /\
  forall (k : nat) (p : Pipe),
    r.1 !! k = Some p ->
    p_x p == W + Num.round (0.6 * w_pipeSpacing world)
             + inject_Z (Z.of_nat k) * w_pipeSpacing world /\
    p_id p = (g_nextId g + k)%nat.
Proof.
  cbv zeta. split; [apply length_generateInitialPipes |]. split.
  - apply (generateInitialPipes_allocated random world H W g).
  - intros k p L. unfold generateInitialPipes in L.
    destruct (pushPipes_lookup random world H _ _ _ _ _ k p L) as (A & B & _).
    split; [| exact B].
    rewrite A, add_eq, mul_eq. change (inject_Z 0) with 0.
    rewrite (Qmult_comm (w_pipeSpacing world) 0.6). ring.
Qed.

(** ** The bird after a frame *)

Section BirdAfterFrame.

Variable random : nat -> Q.

(** The bird that [detect] leaves behind: ground first, then ceiling. *)
Lemma detect_bird bird s :
  birdRef (detect bird s).1 =
    if Num.gt (Num.add (b_y bird) (b_r bird)) (w_groundY (worldRef s))
    then bird_y (Num.sub (w_groundY (worldRef s)) (b_r bird)) bird
    else if Num.lt (Num.sub (b_y bird) (b_r bird)) 0
         then bird_vy 0 (bird_y (b_r bird) bird)
         else bird.
Proof.
  unfold detect. destruct (Num.gt _ _).
  - set (b := bird_y _ _).
    pose proof (endGame_frame (withBird b s)) as F.
    destruct (endGame (withBird b s)) as [s' e]. cbn [fst] in *.
    destruct F as (F1 & _). rewrite F1. now destruct s.
  - set (b := if Num.lt _ _ then _ else _).
    pose proof (scanPipes_frame (c_best (seen s)) (worldRef s) b (pipesRef s) (withBird b s)) as F.
    destruct (scanPipes _ _ _ _ _) as [[s' e] hit]. cbn [fst] in *.
    destruct F as (F1 & _).
    assert (B : birdRef (withBird b s) = b) by (now destruct s).
    rewrite B in F1. destruct hit; cbn [fst]; [exact F1 |].
    destruct s'; exact F1.
Qed.

Lemma update_bird s s' e :
  running s = true -> paused s = false ->
  update random s = Returns (s', e) ->
  let bird := integrate (worldRef s) (birdRef s) in
  birdRef s' =
    if Num.gt (Num.add (b_y bird) (b_r bird)) (w_groundY (worldRef s))
    then bird_y (Num.sub (w_groundY (worldRef s)) (b_r bird)) bird
    else if Num.lt (Num.sub (b_y bird) (b_r bird)) 0
         then bird_vy 0 (bird_y (b_r bird) bird)
         else bird.
Proof.
  intros R P. rewrite update_live by assumption.
  destruct (scrollPipes random s) as [[pipes g] | |]; try discriminate.
  intros [= U] bird.
  pose proof (detect_bird bird (withPipes pipes g s)) as D.
  fold bird in U. rewrite U in D. cbn [fst] in D.
  assert (W : worldRef (withPipes pipes g s) = worldRef s) by (now destruct s).
  rewrite W in D. exact D.
Qed.

End BirdAfterFrame.

(** X11.  If the ground line is at least a bird's diameter down, every
    running, unpaused frame that returns leaves the bird inside the
    playfield, [r <= y] and [y + r <= groundY], with its radius and its
    x-position unchanged. *)
Theorem bird_stays_in_playfield
  (random : nat -> Q) (s s' : State) (e : list Effect) :
  running s = true -> paused s = false ->
  2 * b_r (birdRef s) <= w_groundY (worldRef s) ->
  update random s = Returns (s', e) ->
  b_r (birdRef s') <= b_y (birdRef s') /\
  b_y (birdRef s') + b_r (birdRef s') <= w_groundY (worldRef s) /\
  b_r (birdRef s') = b_r (birdRef s) /\
  b_x (birdRef s') = b_x (birdRef s).
Proof.
  intros R P G U. pose proof (update_bird random s s' e R P U) as B.
  cbv zeta in B. rewrite B. clear B.
  set (bird := integrate (worldRef s) (birdRef s)).
  assert (Er : b_r bird = b_r (birdRef s)) by reflexivity.
  assert (Ex : b_x bird = b_x (birdRef s)) by reflexivity.
  destruct (Num.gt _ _) eqn:T1.
  - cbn [bird_y b_y b_r b_x]. rewrite sub_eq, Er. repeat split; lra.
  - apply lt_false in T1. rewrite add_eq in T1.
    destruct (Num.lt _ _) eqn:T2.
    + cbn [bird_vy bird_y b_y b_r b_x]. rewrite Er. repeat split; lra.
    + apply lt_false in T2. rewrite sub_eq in T2. rewrite <- Er.
      repeat split; lra.
Qed.

Lemma bird_stays_in_playfield_witness :
  let s := stateOf (run half (play steady 1 333) (mount half None 992)) (initialState None) in
  let s' := stateOf (update half s) (initialState None) in
  b_r (birdRef s') <= b_y (birdRef s') /\
  b_y (birdRef s') + b_r (birdRef s') <= w_groundY (worldRef s) /\
  b_r (birdRef s') = b_r (birdRef s) /\
  b_x (birdRef s') = b_x (birdRef s).
Proof.
  apply (bird_stays_in_playfield half
           (stateOf (run half (play steady 1 333) (mount half None 992)) (initialState None))
           (stateOf (update half
              (stateOf (run half (play steady 1 333) (mount half None 992))
                 (initialState None))) (initialState None))
           [StoreBest 1; SfxScore]).
  - vm_compute. reflexivity.
  - vm_compute. reflexivity.
  - vm_compute. discriminate.
  - vm_compute. reflexivity.
Defined.

(** X10.  When the integrated bird is above the ceiling (and not in the
    ground) the frame puts it at [y = r] with [vy = 0]; the wing angle is
    the integrated one. *)
Theorem ceiling_stops_the_bird
  (random : nat -> Q) (s s' : State) (e : list Effect) :
  running s = true -> paused s = false ->
  update random s = Returns (s', e) ->
  let bird := integrate (worldRef s) (birdRef s) in
  b_y bird + b_r bird <= w_groundY (worldRef s) ->
  b_y bird - b_r bird < 0 ->
  b_y (birdRef s') = b_r (birdRef s) /\
  b_vy (birdRef s') = 0 /\
  b_wingAngle (birdRef s') = b_wingAngle bird.
Proof.
  intros R P U bird G C. pose proof (update_bird random s s' e R P U) as B.
  cbv zeta in B. rewrite B. clear B. fold bird.
  assert (T1 : Num.gt (Num.add (b_y bird) (b_r bird)) (w_groundY (worldRef s)) = false).
  { unfold Num.gt. apply lt_false. now rewrite add_eq. }
  assert (T2 : Num.lt (Num.sub (b_y bird) (b_r bird)) 0 = true).
  { apply lt_true. now rewrite sub_eq. }
  rewrite T1, T2. cbn. auto.
Qed.

Lemma ceiling_stops_the_bird_witness :
  let s := withBird {| b_x := 173; b_y := 20; b_vy := -9; b_r := 16; b_wingAngle := -0.8 |}
             (mount half None 992) in
  let s' := stateOf (update half s) (initialState None) in
  b_y (birdRef s') = b_r (birdRef s) /\
  b_vy (birdRef s') = 0 /\
  b_wingAngle (birdRef s') = b_wingAngle (integrate (worldRef s) (birdRef s)).
Proof.
  apply (ceiling_stops_the_bird half
           (withBird {| b_x := 173; b_y := 20; b_vy := -9; b_r := 16; b_wingAngle := -0.8 |}
              (mount half None 992))
           _ (effectsOf (update half
                (withBird {| b_x := 173; b_y := 20; b_vy := -9; b_r := 16;
                             b_wingAngle := -0.8 |} (mount half None 992))))).
  - vm_compute. reflexivity.
  - vm_compute. reflexivity.
  - vm_compute. reflexivity.
  - vm_compute. discriminate.
  - vm_compute. reflexivity.
Defined.

(** ** Game over *)

(** X13.  After [endGame] the session is terminal, and a second
    [endGame] changes nothing and plays nothing: the game-over sound is
    played by the first call only, and only if the session was not
    terminal before. *)
Theorem endGame_fires_once (s : State) :
  gameOverRef (endGame s).1 = true /\
  endGame (endGame s).1 = ((endGame s).1, []) /\
  (endGame s).2 = (if gameOverRef s then [] else [SfxGameOver]) /\
  paused (endGame s).1 = (if gameOverRef s then paused s else true).
Proof.
  unfold endGame. destruct s as [? ? ? ? ? ? ? ? ? [] ? ? ?]; cbn; auto.
Qed.

Section Terminal.

Variable random : nat -> Q.

Lemma credit_keeps_flags best0 p s :
  gameOverRef (credit best0 p s).1 = gameOverRef s /\
  paused (credit best0 p s).1 = paused s /\
  SfxGameOver ∉ (credit best0 p s).2.
Proof.
  unfold credit. destruct s; cbn. destruct (beats _ _); cbn; (split; [| split]);
    try reflexivity; intros E; repeat (apply elem_of_cons in E;
      destruct E as [E | E]; [discriminate |]); now apply not_elem_of_nil in E.
Qed.

Lemma scanPipes_terminal best0 world bird pipes : forall s,
  gameOverRef s = false ->
  let r := scanPipes best0 world bird pipes s in
  gameOverRef r.1.1 = r.2 /\
  (r.2 = true -> paused r.1.1 = true /\ SfxGameOver ∈ r.1.2) /\
  (r.2 = false -> paused r.1.1 = paused s /\ SfxGameOver ∉ r.1.2).
Proof.
  induction pipes as [| p rest IH]; intros s G; cbv zeta.
  - cbn. split; [exact G |]. split; [discriminate |].
    intros _. split; [reflexivity | apply not_elem_of_nil].
  - cbn [scanPipes]. destruct (hitsPipe world bird p).
    + unfold endGame. rewrite G. cbn [fst snd].
      split; [now destruct s |]. split; [| discriminate].
      intros _. split; [now destruct s | apply list_elem_of_singleton; reflexivity].
    + destruct (passed world bird p && negb (bool_decide (p_id p ∈ scoredSetRef s))).
      * destruct (credit_keeps_flags best0 p s) as (C1 & C2 & C3).
        destruct (credit best0 p s) as [s1 e1]. cbn [fst snd] in *.
        rewrite G in C1. specialize (IH s1 C1). cbv zeta in IH.
        destruct (scanPipes best0 world bird rest s1) as [[s2 e2] hit].
        cbn [fst snd] in *. destruct IH as (I1 & I2 & I3).
        split; [exact I1 |]. split.
        -- intros Hh. destruct (I2 Hh) as [A B]. split; [exact A |].
           apply elem_of_app. now right.
        -- intros Hh. destruct (I3 Hh) as [A B]. split; [congruence |].
           intros E. apply elem_of_app in E. tauto.
      * specialize (IH s G). cbv zeta in IH.
        destruct (scanPipes best0 world bird rest s) as [[s2 e2] hit].
        cbn [fst snd] in *. exact IH.
Qed.

Lemma detect_terminal bird s :
  gameOverRef s = false ->
  gameOverRef (detect bird s).1 = true ->
  paused (detect bird s).1 = true /\ SfxGameOver ∈ (detect bird s).2.
Proof.
  intros G. unfold detect. destruct (Num.gt _ _).
  - unfold endGame.
    assert (G' : gameOverRef (withBird (bird_y (Num.sub (w_groundY (worldRef s)) (b_r bird)) bird) s) = false)
      by (now destruct s).
    rewrite G'. cbn [fst snd]. intros _.
    split; [now destruct s | apply list_elem_of_singleton; reflexivity].
  - set (b := if Num.lt _ _ then _ else _).
    assert (G' : gameOverRef (withBird b s) = false) by (now destruct s).
    pose proof (scanPipes_terminal (c_best (seen s)) (worldRef s) b (pipesRef s)
                  (withBird b s) G') as T.
    cbv zeta in T.
    destruct (scanPipes _ _ _ _ _) as [[s' e] hit]. cbn [fst snd] in *.
    destruct T as (T1 & T2 & T3).
    destruct hit; cbn [fst snd].
    + intros _. now apply T2.
    + intros E. assert (gameOverRef s' = true) by (now destruct s'). congruence.
Qed.

End Terminal.

(** X14.  A frame that makes the session terminal also pauses it and
    plays the game-over sound, and the next frame is a no-op. *)
Theorem game_over_stops_the_loop
  (random : nat -> Q) (s s' : State) (e : list Effect) :
  update random s = Returns (s', e) ->
  gameOverRef s = false ->
  gameOverRef s' = true ->
  paused s' = true /\
  SfxGameOver ∈ e /\
  update random s' = Returns (s', []).
Proof.
  intros U G G'.
  assert (P : paused s' = true /\ SfxGameOver ∈ e).
  { revert U. unfold update. destruct (negb (running s) || paused s).
    - intros [= <- _]. congruence.
    - destruct (scrollPipes random s) as [[pipes g] | |]; try discriminate.
      intros [= U].
      assert (G0 : gameOverRef (withPipes pipes g s) = false) by (now destruct s).
      pose proof (detect_terminal (integrate (worldRef s) (birdRef s))
                    (withPipes pipes g s) G0) as T.
      rewrite U in T. cbn [fst snd] in T. now apply T. }
  destruct P as [P E]. split; [exact P |]. split; [exact E |].
  unfold update. rewrite P. now rewrite orb_true_r.
Qed.

Lemma game_over_stops_the_loop_witness :
  let s := stateOf (run half (play [] 1 26) (mount half None 992)) (initialState None) in
  let s' := stateOf (update half s) (initialState None) in
  paused s' = true /\
  SfxGameOver ∈ [SfxGameOver] /\
  update half s' = Returns (s', []).
Proof.
  apply (game_over_stops_the_loop half
           (stateOf (run half (play [] 1 26) (mount half None 992)) (initialState None))).
  - vm_compute. reflexivity.
  - vm_compute. reflexivity.
  - vm_compute. reflexivity.
Defined.

(** ** Pause and restart *)

(** X15.  In a running session pausing and resuming gives back the
    very same state; one toggle flips [paused] and nothing else. *)
Theorem togglePause_twice (s : State) :
  running s = true ->
  togglePause (togglePause s) = s /\
  paused (togglePause s) = negb (paused s) /\
  setPaused (paused s) (togglePause s) = s.
Proof.
  intros R. unfold togglePause.
  destruct s as [ru pa ? ? ? ? ? ? ? ? ? ? ?]. cbn in R. subst ru. cbn.
  now destruct pa.
Qed.

Lemma togglePause_twice_witness :
  let s := mount half None 992 in
  togglePause (togglePause s) = s /\
  paused (togglePause s) = negb (paused s) /\
  setPaused (paused s) (togglePause s) = s.
Proof.
  apply (togglePause_twice (mount half None 992)).
  vm_compute. reflexivity.
Defined.

Lemma setRunning_id s v : running s = v -> setRunning v s = s.
Proof. destruct s. cbn. now intros ->. Qed.

Lemma setPaused_id s v : paused s = v -> setPaused v s = s.
Proof. destruct s. cbn. now intros ->. Qed.

(** The render after a handler changes nothing but what the loop and the
    key handler see. *)
Lemma recapture_fields s s1 :
  running (recapture s s1) = running s1 /\
  paused (recapture s s1) = paused s1 /\
  mode (recapture s s1) = mode s1 /\
  score (recapture s s1) = score s1 /\
  scoreRef (recapture s s1) = scoreRef s1 /\
  best (recapture s s1) = best s1 /\
  displaySize (recapture s s1) = displaySize s1 /\
  birdRef (recapture s s1) = birdRef s1 /\
  pipesRef (recapture s s1) = pipesRef s1 /\
  gameOverRef (recapture s s1) = gameOverRef s1 /\
  scoredSetRef (recapture s s1) = scoredSetRef s1 /\
  worldRef (recapture s s1) = worldRef s1 /\
  gen (recapture s s1) = gen s1.
Proof.
  unfold recapture, capture. destruct (_ && _); destruct s1; cbn; auto 20.
Qed.

Section Restart.

Variable random : nat -> Q.

(** What [resetGame] gives when the session runs and is then unpaused. *)
Lemma fresh_after_reset size s0 s :
  running s0 = true ->
  worldRef s0 = worldRef s -> gen s0 = gen s ->
  best s0 = best s -> b_r (birdRef s0) = b_r (birdRef s) ->
  let s' := setPaused false (resetGameAt random size s0) in
  score s' = 0%Z /\ scoreRef s' = 0%Z /\ scoredSetRef s' = ∅ /\
  gameOverRef s' = false /\ running s' = true /\ paused s' = false /\
  pipesRef s' =
    (generateInitialPipes random (worldRef s) (sz_h size) (sz_w size) (gen s)).1 /\
  length (pipesRef s') = 6%nat /\
  birdRef s' =
    {| b_x := Num.round (Num.mul (sz_w size) 0.18);
       b_y := Num.round (Num.mul (sz_h size) 0.5);
       b_vy := 0; b_r := b_r (birdRef s); b_wingAngle := 0 |} /\
  best s' = best s /\ worldRef s' = worldRef s.
Proof.
  intros R W G B Rr. cbv zeta.
  destruct (resetGameAt_fresh random size s0)
    as (F1 & F2 & F3 & F4 & F5 & F6 & F7 & F8 & F9 & F10 & F11 & F12).
  destruct (resetGameAt_pipes random size s0) as (Pi & _ & Bi).
  rewrite Rr in Bi. rewrite W, G in Pi.
  destruct (resetGameAt random size s0); cbn in *. subst.
  repeat split; congruence.
Qed.

End Restart.

(** X16.  In a running session the R key and the restart button, and in
    a terminal session also a press, Space, Enter and the start button,
    give a fresh session: score 0, empty scored set, not terminal, running,
    unpaused, six new pipes laid out for a canvas of size [(W, H)], the bird
    at [(round(0.18*W), round(0.5*H))] at rest with its radius, best score
    and profile kept.  [(W, H)] is the current canvas size for the mouse
    and the buttons, and for the keys the size that the key handler saw
    when it was registered. *)
Theorem restart_gives_fresh_session
  (random : nat -> Q) (i : Input) (s : State) :
  running s = true ->
  i = KeyR \/ i = RestartButton \/
  (gameOverRef s = true /\
   (i = Press \/ i = KeySpace \/ i = KeyEnter \/ i = StartButton)) ->
  exists s' e,
    handle random i s = Returns (s', e) /\
    score s' = 0%Z /\ scoreRef s' = 0%Z /\ scoredSetRef s' = ∅ /\
    gameOverRef s' = false /\ running s' = true /\ paused s' = false /\
    pipesRef s' =
      (generateInitialPipes random (worldRef s) (sz_h (restartSize i s))
         (sz_w (restartSize i s)) (gen s)).1 /\
    length (pipesRef s') = 6%nat /\
    birdRef s' =
      {| b_x := Num.round (Num.mul (sz_w (restartSize i s)) 0.18);
         b_y := Num.round (Num.mul (sz_h (restartSize i s)) 0.5);
         b_vy := 0; b_r := b_r (birdRef s); b_wingAngle := 0 |} /\
    best s' = best s /\ worldRef s' = worldRef s.
Proof.
  intros R C.
  assert (A : forall s0 e,
             running s0 = true ->
             worldRef s0 = worldRef s -> gen s0 = gen s ->
             best s0 = best s -> b_r (birdRef s0) = b_r (birdRef s) ->
             react random i s
               = Returns (setPaused false (resetGameAt random (restartSize i s) s0), e) ->
             exists s' e,
               handle random i s = Returns (s', e) /\
               score s' = 0%Z /\ scoreRef s' = 0%Z /\ scoredSetRef s' = ∅ /\
               gameOverRef s' = false /\ running s' = true /\ paused s' = false /\
               pipesRef s' =
                 (generateInitialPipes random (worldRef s) (sz_h (restartSize i s))
                    (sz_w (restartSize i s)) (gen s)).1 /\
               length (pipesRef s') = 6%nat /\
               birdRef s' =
                 {| b_x := Num.round (Num.mul (sz_w (restartSize i s)) 0.18);
                    b_y := Num.round (Num.mul (sz_h (restartSize i s)) 0.5);
                    b_vy := 0; b_r := b_r (birdRef s); b_wingAngle := 0 |} /\
               best s' = best s /\ worldRef s' = worldRef s).
  { intros s0 e R0 W G B Rr Hd. eexists _, _.
    split; [unfold handle; rewrite Hd; reflexivity |].
    pose proof (fresh_after_reset random (restartSize i s) s0 s R0 W G B Rr) as F.
    cbv zeta in F.
    destruct (recapture_fields s
                (setPaused false (resetGameAt random (restartSize i s) s0)))
      as (K1 & K2 & _ & K4 & K5 & K6 & _ & K8 & K9 & K10 & K11 & K12 & _).
    rewrite K1, K2, K4, K5, K6, K8, K9, K10, K11, K12. exact F. }
  assert (Ru : forall size s0, running s0 = true ->
                 running (resetGameAt random size s0) = true).
  { intros size s0 R0.
    destruct (resetGameAt_fresh random size s0) as (_ & _ & _ & _ & F5 & _). congruence. }
  assert (Pa : forall size s0, paused s0 = false ->
                 paused (resetGameAt random size s0) = false).
  { intros size s0 P0.
    destruct (resetGameAt_fresh random size s0) as (_ & _ & _ & _ & _ & F6 & _).
    congruence. }
  destruct C as [-> | [-> | [G [-> | [-> | [-> | ->]]]]]]; cbn [restartSize].
  - apply (A s []); try reflexivity; [exact R |].
    cbn [react]. unfold keyR. rewrite R.
    now rewrite (setRunning_id _ _ (Ru _ s R)).
  - apply (A (setPaused false (setRunning true s)) [EnsureAudio]);
      [now destruct s | now destruct s | now destruct s | now destruct s
      | now destruct s |].
    cbn [react]. unfold restartButton. rewrite resetGame_at.
    replace (displaySize (setPaused false (setRunning true s))) with (displaySize s)
      by (now destruct s).
    rewrite (setPaused_id (resetGameAt random _ (setPaused false (setRunning true s)))
               false); [reflexivity |].
    apply Pa. now destruct s.
  - apply (A (setPaused false s) [EnsureAudio; EnsureAudio]);
      [now destruct s | now destruct s | now destruct s | now destruct s
      | now destruct s |].
    cbn [react]. unfold press. rewrite flap_at. unfold flapAt.
    rewrite R, G. cbn [negb].
    rewrite (setPaused_id (resetGameAt random _ (setPaused false s)) false);
      [reflexivity |].
    apply Pa. now destruct s.
  - apply (A (setPaused false s) [EnsureAudio; EnsureAudio]);
      [now destruct s | now destruct s | now destruct s | now destruct s
      | now destruct s |].
    cbn [react]. unfold keySpace, flapAt. rewrite R, G. cbn [negb].
    rewrite (setPaused_id (resetGameAt random _ (setPaused false s)) false);
      [reflexivity |].
    apply Pa. now destruct s.
  - apply (A s []); try reflexivity; [exact R |].
    cbn [react]. unfold keyEnter. rewrite R, G. cbn [negb].
    now rewrite (setRunning_id _ _ (Ru _ s R)).
  - apply (A s [EnsureAudio]); try reflexivity; [exact R |].
    cbn [react]. unfold startButton. now rewrite R, G.
Qed.

Lemma restart_gives_fresh_session_witness :
  let s := stateOf (run half (play [] 1 27) (mount half None 992)) (initialState None) in
  exists s' e,
    handle half Press s = Returns (s', e) /\
    score s' = 0%Z /\ scoreRef s' = 0%Z /\ scoredSetRef s' = ∅ /\
    gameOverRef s' = false /\ running s' = true /\ paused s' = false /\
    pipesRef s' =
      (generateInitialPipes half (worldRef s) (sz_h (restartSize Press s))
         (sz_w (restartSize Press s)) (gen s)).1 /\
    length (pipesRef s') = 6%nat /\
    birdRef s' =
      {| b_x := Num.round (Num.mul (sz_w (restartSize Press s)) 0.18);
         b_y := Num.round (Num.mul (sz_h (restartSize Press s)) 0.5);
         b_vy := 0; b_r := b_r (birdRef s); b_wingAngle := 0 |} /\
    best s' = best s /\ worldRef s' = worldRef s.
Proof.
  apply (restart_gives_fresh_session half Press
           (stateOf (run half (play [] 1 27) (mount half None 992)) (initialState None))).
  - vm_compute. reflexivity.
  - right. right. split; [vm_compute; reflexivity | left; reflexivity].
Defined.

(** A restart with R after a resize in flight: the canvas is 1200 x 600,
    the key handler still lays the session out for 960 x 480. *)
Lemma restart_by_key_after_resize :
  let s := stateOf (run half [WindowResize 1232] (mount half None 992))
             (initialState None) in
  let s' := stateOf (handle half KeyR s) (initialState None) in
  displaySize s = {| sz_w := 1200; sz_h := 600 |} /\
  restartSize KeyR s = {| sz_w := 960; sz_h := 480 |} /\
  restartSize RestartButton s = {| sz_w := 1200; sz_h := 600 |} /\
  b_x (birdRef s') = 173 /\ b_y (birdRef s') = 240 /\
  map p_x (pipesRef s') = [1190; 1574; 1958; 2342; 2726; 3110].
Proof.
  cbv zeta. repeat split; vm_compute; reflexivity.
Qed.

(** ** Who writes the best score *)

Section Writers.

Variable random : nat -> Q.

Lemma best_sizeOrModeEffect s : best (sizeOrModeEffect random s) = best s.
Proof. now destruct (sizeOrModeEffect_fresh random s) as (_ & _ & _ & _ & _ & _ & B & _). Qed.

Lemma best_resetGameAt size s : best (resetGameAt random size s) = best s.
Proof.
  now destruct (resetGameAt_fresh random size s) as (_ & _ & _ & _ & _ & _ & B & _).
Qed.

Lemma best_resetGame s : best (resetGame random s) = best s.
Proof. apply best_resetGameAt. Qed.

Lemma best_flapAt size s :
  best (flapAt random size s).1 = best s /\ writes (flapAt random size s).2 = [].
Proof.
  unfold flapAt.
  destruct (negb (running s)); [cbn [fst snd]; rewrite best_resetGameAt; now destruct s |].
  destruct (gameOverRef s); [cbn [fst snd]; rewrite best_resetGameAt; now destruct s |].
  destruct (negb (paused s)); cbn [fst snd]; now destruct s.
Qed.

Lemma react_keeps_best i s s' e :
  i <> Frame ->
  react random i s = Returns (s', e) ->
  writes e = [] /\ best s' = best s.
Proof.
  intros N. destruct i; cbn [react]; try congruence.
  - unfold press. rewrite flap_at.
    pose proof (best_flapAt (displaySize s) s) as B.
    destruct (flapAt random (displaySize s) s) as [s1 e1]. cbn [fst snd] in B.
    intros [= <- <-]. cbn. tauto.
  - unfold keySpace.
    pose proof (best_flapAt (c_size (seen s)) s) as B.
    destruct (flapAt random (c_size (seen s)) s) as [s1 e1]. cbn [fst snd] in B.
    intros [= <- <-]. cbn. tauto.
  - intros [= <- <-]. split; [reflexivity |]. unfold togglePause.
    destruct (negb (running s)); now destruct s.
  - unfold pauseButton, togglePause. destruct (running s); cbn [negb];
      intros [= <- <-]; (split; [reflexivity | now destruct s]).
  - intros [= <- <-]. split; [reflexivity |]. unfold keyR.
    destruct (running s).
    + transitivity (best (resetGameAt random (c_size (seen s)) s));
        [| apply best_resetGameAt].
      now destruct (resetGameAt random (c_size (seen s)) s).
    + rewrite best_resetGameAt. now destruct s.
  - intros [= <- <-]. split; [reflexivity |]. unfold keyEnter.
    destruct (negb (running s)); [rewrite best_resetGameAt; now destruct s |].
    destruct (gameOverRef s); [| reflexivity].
    transitivity (best (resetGameAt random (c_size (seen s)) s));
      [| apply best_resetGameAt].
    now destruct (resetGameAt random (c_size (seen s)) s).
  - unfold startButton.
    destruct (negb (running s)).
    { intros [= <- <-]. split; [reflexivity |]. rewrite best_resetGame. now destruct s. }
    destruct (gameOverRef s).
    { intros [= <- <-]. split; [reflexivity |].
      transitivity (best (resetGame random s)); [| apply best_resetGame].
      now destruct (resetGame random s). }
    rewrite flap_at.
    pose proof (best_flapAt (displaySize s) s) as B.
    destruct (flapAt random (displaySize s) s) as [s1 e1]. cbn [fst snd] in B.
    intros [= <- <-]. cbn. tauto.
  - intros [= <- <-]. split; [reflexivity |]. unfold restartButton.
    rewrite best_resetGame. now destruct s.
  - intros [= <- <-]. split; [reflexivity |]. unfold selectMode.
    assert (B : best (setPaused false (setRunning true (resetGame random (setMode m s))))
                = best s).
    { transitivity (best (resetGame random (setMode m s))).
      - now destruct (resetGame random (setMode m s)).
      - rewrite best_resetGame. now destruct s. }
    destruct (decide (m = mode s)); [exact B |].
    now rewrite best_sizeOrModeEffect.
  - intros [= <- <-]. split; [reflexivity |]. unfold resize.
    destruct (sameSize _ _); [reflexivity |].
    rewrite best_sizeOrModeEffect. now destruct s.
Qed.

End Writers.

(** X17.  No handler other than a frame writes the best score to
    storage or changes it. *)
Theorem only_frames_store_the_best
  (random : nat -> Q) (i : Input) (s s' : State) (e : list Effect) :
  i <> Frame ->
  handle random i s = Returns (s', e) ->
  writes e = [] /\ best s' = best s.
Proof.
  intros N. unfold handle.
  destruct (react random i s) as [[s1 e1] | |] eqn:R; try discriminate.
  intros [= <- <-].
  destruct (react_keeps_best random i s s1 e1 N R) as [W B].
  split; [exact W |].
  destruct (recapture_fields s s1) as (_ & _ & _ & _ & _ & K6 & _). congruence.
Qed.

Lemma only_frames_store_the_best_witness :
  let s := stateOf (run half (play steady 1 440) (mount half None 992)) (initialState None) in
  writes [EnsureAudio] = [] /\
  best (stateOf (handle half RestartButton s) (initialState None)) = best s.
Proof.
  apply (only_frames_store_the_best half RestartButton
           (stateOf (run half (play steady 1 440) (mount half None 992)) (initialState None))).
  - discriminate.
  - vm_compute. reflexivity.
Defined.

(** ** What the loop and the key handler see *)

Section Captured.

Variable random : nat -> Q.





End Captured.

(** ** The stored best score *)





(** The captured value is not the current one: after two credits [best] is
    2, the loop still compares with 0, and a restart with R, which changes
    neither [running] nor [paused], leaves it so; the first credit of the
    next session stores 1 and lowers [best] to 1. *)
Lemma restart_in_flight_lowers_best :
  let start := mount half None 992 in
  let inputs := play steady 1 440 ++ [KeyR] ++ play steady 1 334 in
  let r := run half inputs start in
  exists s, r = Returns (s, effectsOf r) /\
            writes (effectsOf r) = [1; 2; 1]%Z /\
            score s = 1%Z /\
            best s = ofScore 1 /\
            c_best (seen s) = ofScore 0.
Proof.
  cbv zeta. eexists. split; [vm_compute; reflexivity |].
  repeat split; vm_compute; reflexivity.
Qed.



(** ** Resizing *)

Lemma sameSize_refl a : sameSize a a = true.
Proof.
  unfold sameSize. apply andb_true_iff. split; apply Qeq_bool_iff; reflexivity.
Qed.

(** X20.  Handling the same window width twice is handling it once: a
    resize event that does not change the canvas size does not restart the
    session. *)
Theorem resize_twice (random : nat -> Q) (innerWidth : Q) (s : State) :
  resize random innerWidth (resize random innerWidth s) = resize random innerWidth s /\
  sameSize (recomputeSize innerWidth)
    (displaySize (resize random innerWidth s)) = true.
Proof.
  assert (D : sameSize (recomputeSize innerWidth)
                (displaySize (resize random innerWidth s)) = true).
  { unfold resize.
    destruct (sameSize (recomputeSize innerWidth) (displaySize s)) eqn:E; [exact E |].
    destruct (sizeOrModeEffect_fresh random (setDisplaySize (recomputeSize innerWidth) s))
      as (_ & _ & _ & _ & _ & _ & _ & _ & F9 & _).
    rewrite F9.
    assert (X : displaySize (setDisplaySize (recomputeSize innerWidth) s)
                = recomputeSize innerWidth) by (now destruct s).
    rewrite X. apply sameSize_refl. }
  split; [| exact D].
  unfold resize at 1. now rewrite D.
Qed.

(** ** Changing the mode *)

(** X21.  Selecting another mode installs the whole profile of that
    mode for the current canvas and starts a fresh, running, unpaused
    session with six pipes; the best score is kept. *)
Theorem selectMode_installs_profile (random : nat -> Q) (m : Mode) (s : State) :
  m <> mode s ->
  let s' := selectMode random m s in
  mode s' = m /\
  worldRef s' =
    scaleGameplay m (sz_w (displaySize s)) (sz_h (displaySize s)) (worldRef s) /\
  displaySize s' = displaySize s /\
  running s' = true /\ paused s' = false /\ gameOverRef s' = false /\
  score s' = 0%Z /\ scoredSetRef s' = ∅ /\
  length (pipesRef s') = 6%nat /\
  best s' = best s.
Proof.
  intros N. cbv zeta. unfold selectMode.
  destruct (decide (m = mode s)) as [E | _]; [contradiction |].
  set (s1 := setPaused false (setRunning true (resetGame random (setMode m s)))).
  destruct (sizeOrModeEffect_fresh random s1)
    as (F1 & F2 & F3 & F4 & F5 & F6 & F7 & F8 & F9 & F10 & F11).
  destruct (resetGame_fresh random (setMode m s))
    as (_ & _ & _ & _ & _ & _ & G7 & G8 & G9 & G10 & _).
  assert (M : mode s1 = m).
  { unfold s1. transitivity (mode (resetGame random (setMode m s))).
    - now destruct (resetGame random (setMode m s)).
    - rewrite G10. now destruct s. }
  assert (D : displaySize s1 = displaySize s).
  { unfold s1. transitivity (displaySize (resetGame random (setMode m s))).
    - now destruct (resetGame random (setMode m s)).
    - rewrite G9. now destruct s. }
  assert (W : worldRef s1 = worldRef s).
  { unfold s1. transitivity (worldRef (resetGame random (setMode m s))).
    - now destruct (resetGame random (setMode m s)).
    - rewrite G8. now destruct s. }
  assert (B : best s1 = best s).
  { unfold s1. transitivity (best (resetGame random (setMode m s))).
    - now destruct (resetGame random (setMode m s)).
    - rewrite G7. now destruct s. }
  rewrite F10, F8, F9, M, D, W, F7, B.
  repeat split; assumption.
Qed.

Lemma selectMode_installs_profile_witness :
  let s := mount half None 992 in
  let s' := selectMode half hard s in
  mode s' = hard /\
  worldRef s' =
    scaleGameplay hard (sz_w (displaySize s)) (sz_h (displaySize s)) (worldRef s) /\
  displaySize s' = displaySize s /\
  running s' = true /\ paused s' = false /\ gameOverRef s' = false /\
  score s' = 0%Z /\ scoredSetRef s' = ∅ /\
  length (pipesRef s') = 6%nat /\
  best s' = best s.
Proof.
  apply (selectMode_installs_profile half hard (mount half None 992)).
  vm_compute. discriminate.
Defined.

(** ** Rounding *)

(** [Math.round x] is the one integer in [(x - 1/2, x + 1/2]]. *)
Lemma round_unique x n :
  integral n -> x - 0.5 < n -> n <= x + 0.5 -> Num.round x == n.
Proof.
  intros I L U. pose proof (round_le x). pose proof (round_gt x).
  apply Qle_antisym.
  - apply integral_lt_succ; [apply integral_round | exact I | lra].
  - apply integral_lt_succ; [exact I | apply integral_round | lra].
Qed.

Lemma round_integral q : integral q -> Num.round q == q.
Proof. intros I. apply round_unique; [exact I | lra | lra]. Qed.

Lemma round_lt x y : x + 1 <= y -> Num.round x < Num.round y.
Proof.
  intros L. pose proof (round_le x). pose proof (round_gt y). lra.
Qed.

(** For an integer [H] the value [0.08 * H + 0.5] is never an integer: the
    rounding in [draw] and the rounding of the ground line never meet a
    tie. *)
Lemma no_tie H : integral H -> ~ integral (0.08 * H + 0.5).
Proof.
  unfold integral, Num.floor. intros I J.
  set (h := Qfloor H) in *. set (z := Qfloor (0.08 * H + 0.5)) in *.
  rewrite <- I in J. clearbody h z.
  unfold Qeq in J. cbn in J. lia.
Qed.

(** ** The ground as drawn and the ground as felt *)

(** X18.  For every integer canvas height the top edge of the ground
    band drawn by [draw] is the ground line that [update] collides the
    bird with. *)
Theorem ground_band_meets_ground_line (m : Mode) (W H : Q) (world0 : World) :
  integral H ->
  groundBandTop H == w_groundY (scaleGameplay m W H world0).
Proof.
  intros I. unfold groundBandTop. cbn [scaleGameplay w_groundY].
  rewrite !sub_eq, !mul_eq. unfold Num.max.
  pose proof (round_le (0.08 * H)) as R1. pose proof (round_gt (0.08 * H)) as R2.
  assert (R3 : Num.round (0.08 * H) < 0.08 * H + 0.5).
  { apply Qle_lt_or_eq in R1. destruct R1 as [R1 | R1]; [exact R1 |].
    exfalso. apply (no_tie H I). rewrite <- R1. apply integral_round. }
  destruct (Q.max_spec 36 (0.08 * H)) as [[L E] | [L E]]; rewrite E.
  - assert (E' : Qmax 36 (Num.round (0.08 * H)) == Num.round (0.08 * H)).
    { apply Q.max_r. apply integral_lt_succ;
        [apply (integral_inject 36) | apply integral_round | lra]. }
    rewrite E'. symmetry. apply round_unique.
    + apply integral_minus; [exact I | apply integral_round].
    + lra.
    + lra.
  - assert (E' : Qmax 36 (Num.round (0.08 * H)) == 36).
    { apply Q.max_l. apply integral_lt_succ;
        [apply integral_round | apply (integral_inject 36) | lra]. }
    rewrite E'. symmetry. apply round_integral.
    apply integral_minus; [exact I | apply (integral_inject 36)].
Qed.

Lemma ground_band_meets_ground_line_witness :
  groundBandTop 480 == w_groundY (scaleGameplay normal 960 480 (worldRef (initialState None))).
Proof.
  apply (ground_band_meets_ground_line normal 960 480 (worldRef (initialState None))).
  vm_compute. reflexivity.
Defined.

(** ** The three modes *)

(** X19.  On every canvas at least 27 pixels high the gap is strictly
    wider in easy than in normal than in hard mode and the scroll speed is
    strictly lower; gravity, flap impulse, ground line, pipe width and
    spacing do not depend on the mode. *)
Theorem modes_are_ordered (W H : Q) (world0 : World) :
  27 <= H ->
  let e := scaleGameplay easy W H world0 in
  let n := scaleGameplay normal W H world0 in
  let h := scaleGameplay hard W H world0 in
  w_pipeGap h < w_pipeGap n /\ w_pipeGap n < w_pipeGap e /\
  w_speed e < w_speed n /\ w_speed n < w_speed h /\
  w_gravity e = w_gravity n /\ w_gravity n = w_gravity h /\
  w_flap e = w_flap n /\ w_flap n = w_flap h /\
  w_groundY e = w_groundY n /\ w_groundY n = w_groundY h /\
  w_pipeWidth e = w_pipeWidth n /\ w_pipeWidth n = w_pipeWidth h /\
  w_pipeSpacing e = w_pipeSpacing n /\ w_pipeSpacing n = w_pipeSpacing h.
Proof.
  intros T. cbv zeta.
  cbn [scaleGameplay w_pipeGap w_speed w_gravity w_flap w_groundY w_pipeWidth
       w_pipeSpacing gapFactor speedFactor].
  set (base := Num.max (Num.mul 120 (Num.div H 480)) (Num.round (Num.mul H 0.28))).
  assert (B : 6.75 <= base).
  { unfold base.
    assert (X : Num.mul 120 (Num.div H 480) == 0.25 * H).
    { rewrite mul_eq, div_eq. field. }
    destruct (max_cases (Num.mul 120 (Num.div H 480)) (Num.round (Num.mul H 0.28)))
      as [[L E] | [L E]]; rewrite E; lra. }
  assert (S : 0 < Num.div H 480).
  { rewrite div_eq. apply Qlt_shift_div_l; lra. }
  clearbody base.
  split; [apply round_lt; rewrite !mul_eq; lra |].
  split; [apply round_lt; rewrite !mul_eq; lra |].
  split; [rewrite !mul_eq; lra |].
  split; [rewrite !mul_eq; lra |].
  repeat split; reflexivity.
Qed.

Lemma modes_are_ordered_witness :
  let e := scaleGameplay easy 960 480 (worldRef (initialState None)) in
  let n := scaleGameplay normal 960 480 (worldRef (initialState None)) in
  let h := scaleGameplay hard 960 480 (worldRef (initialState None)) in
  w_pipeGap h < w_pipeGap n /\ w_pipeGap n < w_pipeGap e /\
  w_speed e < w_speed n /\ w_speed n < w_speed h /\
  w_gravity e = w_gravity n /\ w_gravity n = w_gravity h /\
  w_flap e = w_flap n /\ w_flap n = w_flap h /\
  w_groundY e = w_groundY n /\ w_groundY n = w_groundY h /\
  w_pipeWidth e = w_pipeWidth n /\ w_pipeWidth n = w_pipeWidth h /\
  w_pipeSpacing e = w_pipeSpacing n /\ w_pipeSpacing n = w_pipeSpacing h.
Proof.
  apply (modes_are_ordered 960 480 (worldRef (initialState None))).
  vm_compute. discriminate.
Defined.
